(** * CalcWatercourseLength: connected length of a river network

    A shallow embedding of [CalcWatercourseLength.py]: the two traversal
    routines [calcWaterCourseLength] and [calcWaterCourseLengthBlockage],
    the Python list and indexing operations they rely on, and the
    properties of the traversal (acceptance rule, invariants of the work
    queue, termination, blockage truncation, effect on the caller's frame).

    Numbers are exact rationals; [math.sqrt], the intersection test of the
    proximity query, the buffer test of the blockage query and the
    reprojection are operations of an external geometry provider and are
    taken through the [Geometry] interface. *)

From Stdlib Require Import List String ZArith QArith Bool Lia.
Import ListNotations.

Local Open Scope Q_scope.

(** ** Python results: a value, or a raised exception *)

Inductive exn : Type :=
| IndexError   (* list index out of range, positional indexer out of bounds *)
| ValueError.  (* min() of an empty sequence, x not in list, bad LineString *)

Inductive result (A : Type) : Type :=
| Ok (a : A)
| Raise (e : exn)
| OutOfFuel.

Arguments Ok {A} a.
Arguments Raise {A} e.
Arguments OutOfFuel {A}.

Definition bind {A B : Type} (r : result A) (k : A -> result B) : result B :=
  match r with
  | Ok a => k a
  | Raise e => Raise e
  | OutOfFuel => OutOfFuel
  end.

Notation "x <- r ;; k" := (bind r (fun x => k))
  (at level 61, r at next level, right associativity).

Definition fmap {A B : Type} (f : A -> B) (r : result A) : result B :=
  x <- r ;; Ok (f x).

(** ** Data model *)

Definition point : Type := Q * Q.

(** The coordinate sequence of a line string, [geom.coords]. *)
Definition coords : Type := list point.

Definition fid : Type := string.

(** A row of the network frame: the [fid_col] value and the geometry. *)
Definition row : Type := fid * coords.

(** The river network, a GeoDataFrame: its CRS and its rows, in row order. *)
Record GeoDataFrame : Type := mkFrame {
  crs : string;
  rows : list row
}.

(** The blockage frame (weirs): a CRS and point geometries. *)
Record BlockageFrame : Type := mkBlockage {
  bcrs : string;
  bpoints : list point
}.

(** [direction]: upstream (0) or downstream (1). *)
Inductive Direction : Type := Upstream | Downstream.

Definition dir_code (d : Direction) : Z :=
  match d with Upstream => 0%Z | Downstream => 1%Z end.

Definition default_tolerance : Q := 1 # 10.

Definition EPSG27700 : string := "EPSG:27700"%string.

(** ** The geometry provider

    [math_sqrt] is [math.sqrt]; [intersects g poly] is shapely's
    [g.intersects(poly)] for a line string [g] and the polygon with exterior
    ring [poly]; [within_buffer p gs] is [p.within(gs.buffer(1).unary_union)]
    for the geometries [gs] of the selected rows; [to_crs_point src p]
    reprojects [p] from the CRS [src] to EPSG:27700. *)

Class Geometry : Type := {
  math_sqrt : Q -> Q;
  intersects : coords -> list point -> bool;
  within_buffer : point -> list coords -> bool;
  to_crs_point : string -> point -> point
}.

(** ** Python list operations *)

(** [l[i]] with Python's negative indices; IndexError out of range. *)
Definition py_index {A : Type} (l : list A) (i : Z) : result A :=
  let n := Z.of_nat (List.length l) in
  let j := if (i <? 0)%Z then (n + i)%Z else i in
  if ((j <? 0)%Z || (n <=? j)%Z)%bool then Raise IndexError
  else match nth_error l (Z.to_nat j) with
       | Some x => Ok x
       | None => Raise IndexError
       end.

(** [.iloc[0]] of a selection. *)
Definition iloc0 {A : Type} (l : list A) : result A :=
  match l with
  | [] => Raise IndexError
  | x :: _ => Ok x
  end.

(** [fid in found_vertex]. *)
Definition mem (f : fid) (l : list fid) : bool :=
  existsb (String.eqb f) l.

Definition Qlt_bool (x y : Q) : bool := negb (Qle_bool y x).

(** [min(dists)]: the first element that no later element is below. *)
Fixpoint min_from (best : Q) (l : list Q) : Q :=
  match l with
  | [] => best
  | x :: r => min_from (if Qlt_bool x best then x else best) r
  end.

Definition py_min (l : list Q) : result Q :=
  match l with
  | [] => Raise ValueError
  | x :: r => Ok (min_from x r)
  end.

(** [dists.index(v)]: the first position holding a value equal to [v]. *)
Fixpoint index_from (l : list Q) (v : Q) (i : nat) : result nat :=
  match l with
  | [] => Raise ValueError
  | x :: r => if Qeq_bool x v then Ok i else index_from r v (S i)
  end.

Definition py_list_index (l : list Q) (v : Q) : result nat := index_from l v 0.

(** [sum(xs)]: left to right from 0. *)
Definition py_sum (l : list Q) : Q := fold_left Qplus l 0.

(** ** Geometry primitives *)

(** shapely's [LineString(coordinates)]: an empty sequence gives the empty
    line string, two or more coordinate tuples a line; exactly one tuple is
    refused (shapely 1.x: ValueError "LineStrings must have at least 2
    coordinate tuples"; shapely 2: GEOSException "point array must contain
    0 or >1 elements"; the one constructor [ValueError] stands for both). *)
Definition LineString (cs : coords) : result coords :=
  match cs with
  | [_] => Raise ValueError
  | _ => Ok cs
  end.

Section Provider.

Context {G : Geometry}.

(** [math.sqrt((a[0] - b[0]) ** 2 + (a[1] - b[1]) ** 2)] *)
Definition dist (a b : point) : Q :=
  math_sqrt ((fst a - fst b) ^ 2 + (snd a - snd b) ^ 2).

(** [geometry.length]: the sum of the consecutive vertex distances; the
    empty line string has length 0. *)
Fixpoint line_length (cs : coords) : Q :=
  match cs with
  | a :: (b :: _) as tl => dist a b + line_length tl
  | _ => 0
  end.

(** The square search polygon around [cur_coord]. *)
Definition buffer (cur : point) (tolerance : Q) : list point :=
  [ (fst cur - tolerance, snd cur - tolerance);
    (fst cur - tolerance, snd cur + tolerance);
    (fst cur + tolerance, snd cur + tolerance);
    (fst cur + tolerance, snd cur - tolerance) ].

(** [network.to_crs('EPSG:27700')]: a new frame. *)
Definition to_crs (n : GeoDataFrame) : GeoDataFrame :=
  mkFrame EPSG27700
    (map (fun r : row => (fst r, map (to_crs_point (crs n)) (snd r))) (rows n)).

Definition blockage_to_crs (b : BlockageFrame) : BlockageFrame :=
  mkBlockage EPSG27700 (map (to_crs_point (bcrs b)) (bpoints b)).

(** [if network.crs != 'EPSG:27700': network = network.to_crs('EPSG:27700')] *)
Definition normalise (n : GeoDataFrame) : GeoDataFrame :=
  if String.eqb (crs n) EPSG27700 then n else to_crs n.

Definition normalise_blockage (b : BlockageFrame) : BlockageFrame :=
  if String.eqb (bcrs b) EPSG27700 then b else blockage_to_crs b.

(** ** Frame operations *)

(** [network[network[fid_col] == f]] *)
Definition select_fid (net : list row) (f : fid) : list row :=
  filter (fun r : row => String.eqb (fst r) f) net.

(** The coordinates of [network[network[fid_col] == f].geometry.iloc[0]]. *)
Definition geometry_of (net : list row) (f : fid) : result coords :=
  iloc0 (map snd (select_fid net f)).

(** [list(network[network.intersects(buffer)][fid_col])] *)
Definition potential_fids (net : list row) (cur : point) (tolerance : Q)
  : list fid :=
  map fst (filter (fun r : row => intersects (snd r) (buffer cur tolerance)) net).

(** [network.loc[network[fid_col] == f, 'geometry'] = line] *)
Definition set_geometry (net : list row) (f : fid) (line : coords) : list row :=
  map (fun r : row => if String.eqb (fst r) f then (fst r, line) else r) net.

(** [network[network[fid_col].isin(found_vertex)]] *)
Definition isin (net : list row) (found : list fid) : list row :=
  filter (fun r : row => mem (fst r) found) net.

(** [blockage[blockage.within(next_feat.buffer(1).unary_union)]] *)
Definition the_blockage_of (blockage : list point) (next_feat : list row)
  : list point :=
  filter (fun b => within_buffer b (map snd next_feat)) blockage.

(** ** Traversal state *)

Record state : Type := mkState {
  network : list row;
  possible_vertex : list fid;
  found_vertex : list fid
}.

(** [possible_vertex = list(network[network[fid_col] == starting_fid][fid_col]).copy()]
    and [found_vertex = possible_vertex.copy()]. *)
Definition init (starting_fid : fid) (net : list row) : state :=
  let possible := map fst (select_fid net starting_fid) in
  mkState net possible possible.

(** ** calcWaterCourseLength *)

(** The body of [for fid in potential_fids] (lines 60-73). *)
Definition visit (d : Direction) (tolerance : Q) (cur_coord : point)
  (st : state) (f : fid) : result state :=
  if mem f (found_vertex st) then Ok st
  else
    cs <- geometry_of (network st) f ;;
    next_coord <- py_index cs (dir_code d - 1) ;;
    if Qle_bool (dist next_coord cur_coord) tolerance
    then Ok (mkState (network st)
                     (possible_vertex st ++ [f])
                     (found_vertex st ++ [f]))
    else Ok st.

Fixpoint visit_all (d : Direction) (tolerance : Q) (cur_coord : point)
  (st : state) (fids : list fid) : result state :=
  match fids with
  | [] => Ok st
  | f :: rest =>
      st' <- visit d tolerance cur_coord st f ;;
      visit_all d tolerance cur_coord st' rest
  end.

(** The body of [while possible_vertex] (lines 41-73), entered with the
    queue split into its head and the rest by [possible_vertex.pop(0)]. *)
Definition iteration (d : Direction) (tolerance : Q)
  (net : list row) (f : fid) (rest found : list fid) : result state :=
  cs <- geometry_of net f ;;
  cur_coord <- py_index cs (0 - dir_code d) ;;
  visit_all d tolerance cur_coord (mkState net rest found)
            (potential_fids net cur_coord tolerance).

(** ** calcWaterCourseLengthBlockage *)

(** [[math.sqrt((coord[0] - blockage_x) ** 2 + (coord[1] - blockage_y) ** 2)
      for coord in coords]] *)
Definition blockage_dists (cs : coords) (b : point) : list Q :=
  map (fun c => dist c b) cs.

(** [coords[:dists.index(min(dists))]] *)
Definition cut_index (cs : coords) (b : point) : result nat :=
  let dists := blockage_dists cs b in
  m <- py_min dists ;;
  py_list_index dists m.

(** The body of [for fid in potential_fids] (lines 121-148). *)
Definition visit_blockage (blockage : list point) (d : Direction)
  (tolerance : Q) (cur_coord : point) (st : state) (f : fid) : result state :=
  if mem f (found_vertex st) then Ok st
  else
    let next_feat := select_fid (network st) f in
    cs <- iloc0 (map snd next_feat) ;;
    next_coord <- py_index cs (dir_code d - 1) ;;
    if Qle_bool (dist next_coord cur_coord) tolerance
    then
      match the_blockage_of blockage next_feat with
      | [] => Ok (mkState (network st)
                          (possible_vertex st ++ [f])
                          (found_vertex st ++ [f]))
      | b :: _ =>
          k <- cut_index cs b ;;
          line_til_weir <- LineString (firstn k cs) ;;
          Ok (mkState (set_geometry (network st) f line_til_weir)
                      (possible_vertex st)
                      (found_vertex st ++ [f]))
      end
    else Ok st.

Fixpoint visit_all_blockage (blockage : list point) (d : Direction)
  (tolerance : Q) (cur_coord : point) (st : state) (fids : list fid)
  : result state :=
  match fids with
  | [] => Ok st
  | f :: rest =>
      st' <- visit_blockage blockage d tolerance cur_coord st f ;;
      visit_all_blockage blockage d tolerance cur_coord st' rest
  end.

(** The body of [while possible_vertex] (lines 102-148). *)
Definition iteration_blockage (blockage : list point) (d : Direction)
  (tolerance : Q) (net : list row) (f : fid) (rest found : list fid)
  : result state :=
  cs <- geometry_of net f ;;
  cur_coord <- py_index cs (0 - dir_code d) ;;
  visit_all_blockage blockage d tolerance cur_coord (mkState net rest found)
                     (potential_fids net cur_coord tolerance).

(** ** The while loop

    [while possible_vertex: body]; the loop is given a number of iterations
    it may take and reports [OutOfFuel] when the queue is still non-empty
    after them. *)
Fixpoint while_loop (body : list row -> fid -> list fid -> list fid -> result state)
  (fuel : nat) (st : state) : result state :=
  match possible_vertex st with
  | [] => Ok st
  | f :: rest =>
      match fuel with
      | O => OutOfFuel
      | S fuel' =>
          st' <- body (network st) f rest (found_vertex st) ;;
          while_loop body fuel' st'
      end
  end.

(** [sum(selected.geometry.length)] *)
Definition total_length (selected : list row) : Q :=
  py_sum (map (fun r : row => line_length (snd r)) selected).

(** [calcWaterCourseLength(fid_col, starting_fid, network, direction, tolerance)];
    the frame has one id column, so [fid_col] is implicit. The loop may take
    one iteration per row of the network. *)
Definition calcWaterCourseLength (starting_fid : fid) (net : GeoDataFrame)
  (d : Direction) (tolerance : Q) : result (GeoDataFrame * Q) :=
  let net := normalise net in
  st <- while_loop (iteration d tolerance) (List.length (rows net))
                   (init starting_fid (rows net)) ;;
  let selected := isin (network st) (found_vertex st) in
  Ok (mkFrame (crs net) selected, total_length selected).

(** What a call of the blockage variant leaves behind: the frame object the
    caller passed (Python passes it by reference), and the returned pair. *)
Record outcome : Type := mkOutcome {
  caller_network : GeoDataFrame;
  selected : GeoDataFrame;
  totalLength : Q
}.

(** [calcWaterCourseLengthBlockage(fid_col, starting_fid, network, blockage,
    direction, tolerance)]. The local name [network] is the caller's object
    when the CRS is already EPSG:27700, and a fresh reprojected frame
    otherwise; [network.loc[...] = line_til_weir] writes to the object the
    local name is bound to. *)
Definition calcWaterCourseLengthBlockage (starting_fid : fid)
  (net : GeoDataFrame) (blockage : BlockageFrame)
  (d : Direction) (tolerance : Q) : result outcome :=
  let aliased := String.eqb (crs net) EPSG27700 in
  let local := normalise net in
  let blockage := normalise_blockage blockage in
  st <- while_loop (iteration_blockage (bpoints blockage) d tolerance)
                   (List.length (rows local)) (init starting_fid (rows local)) ;;
  let local' := mkFrame (crs local) (network st) in
  let sel := isin (network st) (found_vertex st) in
  Ok (mkOutcome (if aliased then local' else net)
                (mkFrame (crs local) sel)
                (total_length sel)).

End Provider.

(** ** A concrete provider: exact planar geometry

    Used to run the traversal on concrete networks. The square root is
    rounded down to six decimals (exact on the squares of such numbers); a
    line string intersects the search polygon when one of its segments meets
    the closed box spanned by the ring; a point is within the unit buffer
    when it is at distance below 1 from one of the geometries; the
    reprojection keeps the planar coordinates, as for a source CRS on the
    same grid (EPSG:7405, the British National Grid with ODN heights). *)

Module Plane.

Definition scale : Z := 1000000.

Definition sqrt_down (q : Q) : Q :=
  let n := Qnum q in
  let d := Z.pos (Qden q) in
  Qred (Qmake (Z.sqrt (n * d * scale * scale)) (Z.to_pos (d * scale))).

Definition Qmin' (x y : Q) : Q := if Qle_bool x y then x else y.
Definition Qmax' (x y : Q) : Q := if Qle_bool x y then y else x.

(** One clipping constraint [p * t <= q] on the parameter interval. *)
Definition clip (p q : Q) (t : Q * Q) : option (Q * Q) :=
  let (t0, t1) := t in
  if Qeq_bool p 0 then (if Qle_bool 0 q then Some t else None)
  else
    let r := q / p in
    if Qlt_bool p 0
    then (if Qlt_bool t1 r then None else Some (Qmax' t0 r, t1))
    else (if Qlt_bool r t0 then None else Some (t0, Qmin' t1 r)).

Definition oclip (p q : Q) (t : option (Q * Q)) : option (Q * Q) :=
  match t with
  | Some t => clip p q t
  | None => None
  end.

(** Does the segment [a b] meet the closed box [lo, hi]? *)
Definition segment_meets_box (lo hi a b : point) : bool :=
  let dx := fst b - fst a in
  let dy := snd b - snd a in
  match oclip dy (snd hi - snd a)
          (oclip (- dy) (snd a - snd lo)
             (oclip dx (fst hi - fst a)
                (oclip (- dx) (fst a - fst lo) (Some (0, 1))))) with
  | Some _ => true
  | None => false
  end.

Fixpoint segments (cs : coords) : list (point * point) :=
  match cs with
  | a :: (b :: _) as tl => (a, b) :: segments tl
  | _ => []
  end.

Definition ring_lo (ring : list point) : point :=
  match ring with
  | [] => (0, 0)
  | p :: r =>
      fold_left (fun m c => (Qmin' (fst m) (fst c), Qmin' (snd m) (snd c))) r p
  end.

Definition ring_hi (ring : list point) : point :=
  match ring with
  | [] => (0, 0)
  | p :: r =>
      fold_left (fun m c => (Qmax' (fst m) (fst c), Qmax' (snd m) (snd c))) r p
  end.

Definition intersects_box (g : coords) (ring : list point) : bool :=
  existsb (fun s => segment_meets_box (ring_lo ring) (ring_hi ring) (fst s) (snd s))
          (segments g).

(** Squared distance from [p] to the segment [a b]. *)
Definition seg_dist2 (p a b : point) : Q :=
  let dx := fst b - fst a in
  let dy := snd b - snd a in
  let l2 := dx ^ 2 + dy ^ 2 in
  if Qeq_bool l2 0 then (fst p - fst a) ^ 2 + (snd p - snd a) ^ 2
  else
    let t := Qmax' 0 (Qmin' 1 (((fst p - fst a) * dx + (snd p - snd a) * dy) / l2)) in
    (fst p - (fst a + t * dx)) ^ 2 + (snd p - (snd a + t * dy)) ^ 2.

Definition within_unit_buffer (p : point) (gs : list coords) : bool :=
  existsb (fun g => existsb (fun s => Qlt_bool (seg_dist2 p (fst s) (snd s)) 1)
                            (segments g)) gs.

#[export] Instance geometry : Geometry := {|
  math_sqrt := sqrt_down;
  intersects := intersects_box;
  within_buffer := within_unit_buffer;
  to_crs_point := fun _ p => p
|}.

End Plane.

(** * Properties *)

Section Properties.

Context {G : Geometry}.

(** ** Lists and membership *)

Lemma mem_In (f : fid) (l : list fid) : mem f l = true <-> In f l.
Proof.
  unfold mem. rewrite existsb_exists. split.
  - intros [x [Hx He]]. apply String.eqb_eq in He. now subst.
  - intros H. exists f. split; [assumption | apply String.eqb_refl].
Qed.

Lemma mem_false (f : fid) (l : list fid) : mem f l = false <-> ~ In f l.
Proof.
  rewrite <- mem_In. destruct (mem f l); split; congruence.
Qed.

Lemma mem_app_single (f g : fid) (l : list fid) :
  mem f (l ++ [g]) = (mem f l || String.eqb f g)%bool.
Proof.
  unfold mem. rewrite existsb_app. simpl. now rewrite orb_false_r.
Qed.

Lemma fids_set_geometry (net : list row) (f : fid) (line : coords) :
  map fst (set_geometry net f line) = map fst net.
Proof.
  unfold set_geometry. rewrite map_map. apply map_ext.
  intros r. now destruct (String.eqb (fst r) f).
Qed.

Lemma select_fid_In (net : list row) (f : fid) (r : row) :
  In r (select_fid net f) <-> In r net /\ fst r = f.
Proof.
  unfold select_fid. rewrite filter_In. now rewrite String.eqb_eq.
Qed.

Lemma geometry_of_In (net : list row) (f : fid) (cs : coords) :
  geometry_of net f = Ok cs -> In f (map fst net).
Proof.
  unfold geometry_of. destruct (select_fid net f) as [|r l] eqn:E; simpl.
  - discriminate.
  - intros _. assert (H : In r (select_fid net f)) by (rewrite E; now left).
    apply select_fid_In in H. destruct H as [H1 H2]. subst f.
    now apply in_map.
Qed.

(** ** The measure of the while loop: rows not yet found, plus the queue *)

Definition unfound (fids found : list fid) : nat :=
  List.length (filter (fun f => negb (mem f found)) fids).

Definition measure (s : state) : nat :=
  (unfound (map fst (network s)) (found_vertex s)
   + List.length (possible_vertex s))%nat.

Lemma unfound_app_le (fids found : list fid) (f : fid) :
  (unfound fids (found ++ [f]) <= unfound fids found)%nat.
Proof.
  unfold unfound. induction fids as [|x l IH]; simpl; [lia|].
  rewrite mem_app_single.
  destruct (mem x found); simpl; [exact IH|].
  destruct (String.eqb x f); simpl; lia.
Qed.

Lemma unfound_app_lt (fids found : list fid) (f : fid) :
  In f fids -> ~ In f found ->
  (S (unfound fids (found ++ [f])) <= unfound fids found)%nat.
Proof.
  intros Hin Hnot. apply mem_false in Hnot.
  induction fids as [|x l IH]; simpl in Hin; [contradiction|].
  unfold unfound in *. simpl. rewrite mem_app_single.
  destruct Hin as [->|Hin].
  - rewrite Hnot, String.eqb_refl. simpl.
    pose proof (unfound_app_le l found f) as H. unfold unfound in H. lia.
  - specialize (IH Hin).
    destruct (mem x found); simpl; [exact IH|].
    destruct (String.eqb x f); simpl; lia.
Qed.

(** ** How one step may change the state *)

Record grows (s s' : state) : Prop := mkGrows {
  grows_fids : map fst (network s') = map fst (network s);
  grows_sets : exists new newq,
      found_vertex s' = found_vertex s ++ new
      /\ possible_vertex s' = possible_vertex s ++ newq
      /\ NoDup new
      /\ (forall f, In f new -> ~ In f (found_vertex s))
      /\ incl newq new;
  grows_measure : (measure s' <= measure s)%nat
}.

Lemma grows_refl (s : state) : grows s s.
Proof.
  split; [reflexivity | | lia].
  exists [], []. rewrite !app_nil_r.
  repeat split; try constructor; intros; try contradiction.
  intros x Hx. exact Hx.
Qed.

Lemma grows_trans (s1 s2 s3 : state) : grows s1 s2 -> grows s2 s3 -> grows s1 s3.
Proof.
  intros [F1 (n1 & q1 & A1 & B1 & C1 & D1 & E1) M1]
         [F2 (n2 & q2 & A2 & B2 & C2 & D2 & E2) M2].
  split; [congruence | | lia].
  exists (n1 ++ n2), (q1 ++ q2).
  rewrite A2, A1, B2, B1, <- !app_assoc. repeat split.
  - apply NoDup_app; [assumption | assumption |].
    intros a Ha Hb. apply (D2 a Hb). rewrite A1. apply in_app_iff. now right.
  - intros f Hf. apply in_app_iff in Hf. destruct Hf as [Hf|Hf].
    + now apply D1.
    + intros Hin. apply (D2 f Hf). rewrite A1. apply in_app_iff. now left.
  - intros x Hx. apply in_app_iff in Hx. apply in_app_iff.
    destruct Hx; [left; now apply E1 | right; now apply E2].
Qed.

Lemma grows_accept (s : state) (f : fid) :
  In f (map fst (network s)) -> ~ In f (found_vertex s) ->
  grows s (mkState (network s) (possible_vertex s ++ [f]) (found_vertex s ++ [f])).
Proof.
  intros Hin Hnot. split; simpl.
  - reflexivity.
  - exists [f], [f]. repeat split.
    + constructor; [intros [] | constructor].
    + intros g [<-|[]]. assumption.
    + intros x Hx. exact Hx.
  - unfold measure. simpl. rewrite length_app. simpl.
    pose proof (unfound_app_lt _ _ _ Hin Hnot). lia.
Qed.

Lemma grows_truncate (s : state) (f : fid) (line : coords) :
  In f (map fst (network s)) -> ~ In f (found_vertex s) ->
  grows s (mkState (set_geometry (network s) f line)
                   (possible_vertex s) (found_vertex s ++ [f])).
Proof.
  intros Hin Hnot. split; simpl.
  - apply fids_set_geometry.
  - exists [f], []. rewrite app_nil_r. repeat split.
    + constructor; [intros [] | constructor].
    + intros g [<-|[]]. assumption.
    + intros x [].
  - unfold measure. simpl. rewrite fids_set_geometry.
    pose proof (unfound_app_lt _ _ _ Hin Hnot). lia.
Qed.

(** ** Steps of the two traversals *)

Ltac bind_case H :=
  match type of H with
  | context [bind ?r _] =>
      let E := fresh "E" in destruct r eqn:E; simpl in H; try discriminate
  end.

Lemma visit_grows d tol cur s f s' :
  visit d tol cur s f = Ok s' -> grows s s'.
Proof.
  unfold visit. intros H.
  destruct (mem f (found_vertex s)) eqn:Hm.
  - inversion H; subst. apply grows_refl.
  - bind_case H. bind_case H.
    destruct (Qle_bool _ _); inversion H; subst.
    + apply grows_accept; [eapply geometry_of_In; eassumption|].
      now apply mem_false.
    + apply grows_refl.
Qed.

Lemma visit_blockage_grows bl d tol cur s f s' :
  visit_blockage bl d tol cur s f = Ok s' -> grows s s'.
Proof.
  unfold visit_blockage. intros H.
  destruct (mem f (found_vertex s)) eqn:Hm.
  - inversion H; subst. apply grows_refl.
  - bind_case H. bind_case H.
    pose proof (geometry_of_In (network s) f a E) as Hin.
    apply mem_false in Hm.
    destruct (Qle_bool _ _).
    + destruct (the_blockage_of _ _).
      * inversion H; subst. now apply grows_accept.
      * bind_case H. bind_case H. inversion H; subst.
        now apply grows_truncate.
    + inversion H; subst. apply grows_refl.
Qed.

Lemma visit_all_grows d tol cur fids s s' :
  visit_all d tol cur s fids = Ok s' -> grows s s'.
Proof.
  revert s. induction fids as [|f l IH]; simpl; intros s H.
  - inversion H; subst. apply grows_refl.
  - bind_case H. eapply grows_trans; [eapply visit_grows; eassumption|].
    now apply IH.
Qed.

Lemma visit_all_blockage_grows bl d tol cur fids s s' :
  visit_all_blockage bl d tol cur s fids = Ok s' -> grows s s'.
Proof.
  revert s. induction fids as [|f l IH]; simpl; intros s H.
  - inversion H; subst. apply grows_refl.
  - bind_case H. eapply grows_trans; [eapply visit_blockage_grows; eassumption|].
    now apply IH.
Qed.

(** The loop bodies never run out of fuel themselves: they are bounded by
    the candidates of one proximity query. *)

Lemma py_index_fuel {A} (l : list A) i : py_index l i <> OutOfFuel.
Proof.
  unfold py_index. destruct (_ || _)%bool; [discriminate|].
  destruct (nth_error _ _); discriminate.
Qed.

Lemma iloc0_fuel {A} (l : list A) : iloc0 l <> OutOfFuel.
Proof. destruct l; discriminate. Qed.

Lemma index_from_fuel l v i : index_from l v i <> OutOfFuel.
Proof.
  revert i. induction l as [|x r IH]; simpl; intros i; [discriminate|].
  destruct (Qeq_bool x v); [discriminate | apply IH].
Qed.

Lemma cut_index_fuel cs b : cut_index cs b <> OutOfFuel.
Proof.
  unfold cut_index, py_min. destruct (blockage_dists cs b) eqn:E; simpl.
  - discriminate.
  - apply index_from_fuel.
Qed.

Lemma LineString_fuel cs : LineString cs <> OutOfFuel.
Proof. destruct cs as [|a [|b l]]; discriminate. Qed.

Lemma visit_fuel d tol cur s f : visit d tol cur s f <> OutOfFuel.
Proof.
  unfold visit, geometry_of. destruct (mem _ _); [discriminate|].
  pose proof (iloc0_fuel (map snd (select_fid (network s) f))) as H1.
  destruct (iloc0 _) as [cs| |]; simpl; try discriminate; [|contradiction].
  pose proof (py_index_fuel cs (dir_code d - 1)) as H2.
  destruct (py_index _ _); simpl; try discriminate; [|contradiction].
  destruct (Qle_bool _ _); discriminate.
Qed.

Lemma visit_blockage_fuel bl d tol cur s f :
  visit_blockage bl d tol cur s f <> OutOfFuel.
Proof.
  unfold visit_blockage. destruct (mem _ _); [discriminate|].
  pose proof (iloc0_fuel (map snd (select_fid (network s) f))) as H1.
  destruct (iloc0 _) as [cs| |]; simpl; try discriminate; [|contradiction].
  pose proof (py_index_fuel cs (dir_code d - 1)) as H2.
  destruct (py_index _ _); simpl; try discriminate; [|contradiction].
  destruct (Qle_bool _ _); [|discriminate].
  destruct (the_blockage_of _ _) as [|b l]; [discriminate|].
  pose proof (cut_index_fuel cs b) as H3.
  destruct (cut_index cs b) as [k| |]; simpl; try discriminate; [|contradiction].
  pose proof (LineString_fuel (firstn k cs)) as H4.
  destruct (LineString _); simpl; try discriminate. contradiction.
Qed.

Lemma visit_all_fuel d tol cur fids s : visit_all d tol cur s fids <> OutOfFuel.
Proof.
  revert s. induction fids as [|f l IH]; simpl; intros s; [discriminate|].
  pose proof (visit_fuel d tol cur s f).
  destruct (visit _ _ _ _ _); simpl; try discriminate; [apply IH | contradiction].
Qed.

Lemma visit_all_blockage_fuel bl d tol cur fids s :
  visit_all_blockage bl d tol cur s fids <> OutOfFuel.
Proof.
  revert s. induction fids as [|f l IH]; simpl; intros s; [discriminate|].
  pose proof (visit_blockage_fuel bl d tol cur s f).
  destruct (visit_blockage _ _ _ _ _ _); simpl; try discriminate;
    [apply IH | contradiction].
Qed.

(** A loop body is well behaved when each iteration only [grows] the state
    obtained by popping the head of the queue. *)
Definition well_behaved
  (body : list row -> fid -> list fid -> list fid -> result state) : Prop :=
  forall net f rest found,
    body net f rest found <> OutOfFuel
    /\ forall s', body net f rest found = Ok s' ->
                  grows (mkState net rest found) s'.

Lemma iteration_well_behaved d tol : well_behaved (iteration d tol).
Proof.
  intros net f rest found. unfold iteration, geometry_of. split.
  - pose proof (iloc0_fuel (map snd (select_fid net f))) as H1.
    destruct (iloc0 _) as [cs| |]; simpl; try discriminate; [|contradiction].
    pose proof (py_index_fuel cs (0 - dir_code d)) as H2.
    destruct (py_index _ _); simpl; try discriminate; [|contradiction].
    apply visit_all_fuel.
  - intros s' H. bind_case H. bind_case H.
    eapply visit_all_grows; eassumption.
Qed.

Lemma iteration_blockage_well_behaved bl d tol :
  well_behaved (iteration_blockage bl d tol).
Proof.
  intros net f rest found. unfold iteration_blockage, geometry_of. split.
  - pose proof (iloc0_fuel (map snd (select_fid net f))) as H1.
    destruct (iloc0 _) as [cs| |]; simpl; try discriminate; [|contradiction].
    pose proof (py_index_fuel cs (0 - dir_code d)) as H2.
    destruct (py_index _ _); simpl; try discriminate; [|contradiction].
    apply visit_all_blockage_fuel.
  - intros s' H. bind_case H. bind_case H.
    eapply visit_all_blockage_grows; eassumption.
Qed.

(** ** Runs of the while loop *)

(** [reaches body s s']: the loop started in [s] is in state [s'] at the
    head of some later iteration (or at its exit). *)
Inductive reaches
  (body : list row -> fid -> list fid -> list fid -> result state)
  : state -> state -> Prop :=
| reaches_here s : reaches body s s
| reaches_next s f rest s' s'' :
    possible_vertex s = f :: rest ->
    body (network s) f rest (found_vertex s) = Ok s' ->
    reaches body s' s'' ->
    reaches body s s''.

Lemma reaches_trans body s1 s2 s3 :
  reaches body s1 s2 -> reaches body s2 s3 -> reaches body s1 s3.
Proof.
  induction 1; intros H3; [assumption|].
  eapply reaches_next; eauto.
Qed.

Lemma while_loop_reaches body fuel s s' :
  while_loop body fuel s = Ok s' ->
  reaches body s s' /\ possible_vertex s' = [].
Proof.
  revert s. induction fuel as [|n IH]; intros s; simpl;
    destruct (possible_vertex s) as [|f rest] eqn:E; intros H;
    try discriminate.
  - inversion H; subst. split; [constructor | assumption].
  - inversion H; subst. split; [constructor | assumption].
  - bind_case H. destruct (IH _ H) as [H1 H2]. split; [|assumption].
    eapply reaches_next; eauto.
Qed.

Lemma measure_pop net f rest found :
  measure (mkState net (f :: rest) found) = S (measure (mkState net rest found)).
Proof. unfold measure. simpl. lia. Qed.

Lemma while_loop_terminates body :
  well_behaved body ->
  forall fuel s, (measure s <= fuel)%nat -> while_loop body fuel s <> OutOfFuel.
Proof.
  intros WB. induction fuel as [|n IH]; intros s Hm; simpl;
    destruct s as [net q found]; simpl; destruct q as [|f rest];
    try discriminate.
  - rewrite measure_pop in Hm. lia.
  - rewrite measure_pop in Hm. destruct (WB net f rest found) as [Hf Hg].
    destruct (body net f rest found) as [s'| |]; simpl;
      [|discriminate|contradiction].
    apply IH. specialize (Hg s' eq_refl). destruct Hg as [_ _ Hg]. lia.
Qed.

(** What holds between two states of one run. *)
Record later (s s' : state) : Prop := mkLater {
  later_fids : map fst (network s') = map fst (network s);
  later_found : exists new,
      found_vertex s' = found_vertex s ++ new
      /\ NoDup new
      /\ (forall f, In f new -> ~ In f (found_vertex s));
  later_queue :
    incl (possible_vertex s) (found_vertex s) ->
    incl (possible_vertex s') (found_vertex s')
}.

Lemma reaches_later body :
  well_behaved body -> forall s s', reaches body s s' -> later s s'.
Proof.
  intros WB s s' H. induction H as [s | s f rest s' s'' Hq Hb Hr IH].
  - split; [reflexivity | | tauto].
    exists []. rewrite app_nil_r. repeat split; [constructor|]. intros f [].
  - destruct (WB (network s) f rest (found_vertex s)) as [_ Hg].
    specialize (Hg s' Hb).
    destruct Hg as [F1 (n1 & q1 & A1 & B1 & C1 & D1 & E1) _].
    destruct IH as [F2 (n2 & A2 & C2 & D2) Q2]. simpl in *.
    split.
    + congruence.
    + exists (n1 ++ n2). rewrite A2, A1, <- app_assoc. repeat split.
      * apply NoDup_app; [assumption | assumption |].
        intros a Ha Hb'. apply (D2 a Hb'). rewrite A1. apply in_app_iff.
        now right.
      * intros g Hg. apply in_app_iff in Hg. destruct Hg as [Hg|Hg].
        -- now apply D1.
        -- intros Hin. apply (D2 g Hg). rewrite A1. apply in_app_iff.
           now left.
    + intros Hi. apply Q2. rewrite B1, A1. intros x Hx.
      apply in_app_iff in Hx. apply in_app_iff. destruct Hx as [Hx|Hx].
      * left. apply Hi. rewrite Hq. now right.
      * right. now apply E1.
Qed.

Lemma init_queue_found start net :
  incl (possible_vertex (init start net)) (found_vertex (init start net)).
Proof. unfold init. simpl. intros x Hx. exact Hx. Qed.

Lemma filter_length_mono {A} (p q : A -> bool) (l : list A) :
  (forall x, In x l -> p x = true -> q x = true) ->
  (List.length (filter p l) <= List.length (filter q l))%nat.
Proof.
  induction l as [|x l IH]; simpl; intros H; [lia|].
  assert (IH' : (List.length (filter p l) <= List.length (filter q l))%nat).
  { apply IH. intros y Hy. apply H. now right. }
  destruct (p x) eqn:Ep.
  - rewrite (H x (or_introl eq_refl) Ep). simpl. lia.
  - destruct (q x); simpl; lia.
Qed.

Lemma filter_map_length {A B} (p : B -> bool) (f : A -> B) (l : list A) :
  List.length (filter p (map f l)) = List.length (filter (fun x => p (f x)) l).
Proof.
  induction l as [|x l IH]; simpl; [reflexivity|].
  destruct (p (f x)); simpl; now rewrite IH.
Qed.

Lemma measure_init start net :
  (measure (init start net) <= List.length net)%nat.
Proof.
  unfold measure, init, unfound. simpl.
  rewrite length_map, filter_map_length.
  pose proof (filter_length (fun r : row => String.eqb (fst r) start) net) as HL.
  assert (H : (List.length
                 (filter (fun r : row =>
                            negb (mem (fst r) (map fst (select_fid net start))))
                         net)
               <= List.length
                    (filter (fun r : row => negb (String.eqb (fst r) start)) net))%nat).
  { apply filter_length_mono. intros r Hr Hn.
    apply negb_true_iff in Hn. apply mem_false in Hn.
    apply negb_true_iff. destruct (String.eqb (fst r) start) eqn:E; [|reflexivity].
    exfalso. apply Hn. apply in_map. apply select_fid_In. split; [assumption|].
    now apply String.eqb_eq. }
  unfold select_fid in *.
  eapply Nat.le_trans; [apply Nat.add_le_mono_r; exact H|].
  rewrite Nat.add_comm. apply Nat.eq_le_incl. exact HL.
Qed.

Lemma NoDup_fids_select net f :
  NoDup (map fst net) -> NoDup (map fst (select_fid net f)).
Proof.
  induction net as [|r l IH]; simpl; intros H; [constructor|].
  inversion H as [|x xs Hx Hl]; subst.
  destruct (String.eqb (fst r) f); simpl; [|now apply IH].
  constructor; [|now apply IH].
  intros Hin. apply Hx. apply in_map_iff in Hin.
  destruct Hin as [r' [E Hr']]. apply select_fid_In in Hr'.
  rewrite <- E. apply in_map. tauto.
Qed.

(** The discipline of the work queue over a run started in [s0] with
    [fuel] iterations allowed: at every iteration the queue is within the
    visited list; from any state of the run to any later one the visited
    list only gains ids at its end, each new id once and none that was
    already there; when the network's ids are unique the visited list never
    holds an id twice; and the loop does not run out of iterations. *)
Definition queue_discipline
  (body : list row -> fid -> list fid -> list fid -> result state)
  (s0 : state) (fuel : nat) : Prop :=
  (forall s, reaches body s0 s ->
             incl (possible_vertex s) (found_vertex s))
  /\ (forall s s', reaches body s0 s -> reaches body s s' ->
        exists new, found_vertex s' = found_vertex s ++ new
                    /\ NoDup new
                    /\ (forall f, In f new -> ~ In f (found_vertex s)))
  /\ (NoDup (map fst (network s0)) ->
      forall s, reaches body s0 s -> NoDup (found_vertex s))
  /\ while_loop body fuel s0 <> OutOfFuel.

Lemma well_behaved_discipline body start net :
  well_behaved body ->
  queue_discipline body (init start net) (List.length net).
Proof.
  intros WB. repeat split.
  - intros s Hs. apply (later_queue _ _ (reaches_later body WB _ _ Hs)).
    apply init_queue_found.
  - intros s s' _ Hs'. apply (later_found _ _ (reaches_later body WB _ _ Hs')).
  - intros Hnd s Hs.
    destruct (later_found _ _ (reaches_later body WB _ _ Hs))
      as (new & A & B & C).
    rewrite A. apply NoDup_app; [|assumption|].
    + simpl. now apply NoDup_fids_select.
    + intros a Ha Hb. now apply (C a Hb).
  - apply while_loop_terminates; [assumption | apply measure_init].
Qed.

(** C4: in both traversals every id in the work queue is in the visited
    list, the visited list only grows, by ids it did not hold (so an id
    enters it at most once and never leaves), and the while loop terminates:
    run for as many iterations as the network has rows, neither loop and
    neither function is left without iterations. *)
Theorem frontier_within_visited_and_loop_terminates
  (starting_fid : fid) (net : GeoDataFrame) (blockage : BlockageFrame)
  (d : Direction) (tolerance : Q) :
  let local := rows (normalise net) in
  queue_discipline (iteration d tolerance)
                   (init starting_fid local) (List.length local)
  /\ queue_discipline
       (iteration_blockage (bpoints (normalise_blockage blockage)) d tolerance)
       (init starting_fid local) (List.length local)
  /\ calcWaterCourseLength starting_fid net d tolerance <> OutOfFuel
  /\ calcWaterCourseLengthBlockage starting_fid net blockage d tolerance
     <> OutOfFuel.
Proof.
  intros local.
  pose proof (well_behaved_discipline _ starting_fid local
                (iteration_well_behaved d tolerance)) as H1.
  pose proof (well_behaved_discipline _ starting_fid local
                (iteration_blockage_well_behaved
                   (bpoints (normalise_blockage blockage)) d tolerance)) as H2.
  split; [exact H1|]. split; [exact H2|]. split.
  - unfold calcWaterCourseLength. fold local.
    destruct H1 as (_ & _ & _ & H1).
    destruct (while_loop _ _ _); simpl; [discriminate | discriminate | contradiction].
  - unfold calcWaterCourseLengthBlockage. fold local.
    destruct H2 as (_ & _ & _ & H2).
    destruct (while_loop _ _ _); simpl; [discriminate | discriminate | contradiction].
Qed.

(** ** The acceptance rule *)

(** C5: a candidate not yet visited, with far endpoint [next_coord], is
    accepted as connected (appended to the visited list and to the queue)
    if and only if its distance to the leading endpoint [cur_coord] is at
    most the tolerance; at distance exactly the tolerance it is accepted,
    above the tolerance the state is left as it was. *)
Theorem connected_iff_within_tolerance
  (d : Direction) (tolerance : Q) (cur_coord : point) (s : state) (f : fid)
  (cs : coords) (next_coord : point) :
  ~ In f (found_vertex s) ->
  geometry_of (network s) f = Ok cs ->
  py_index cs (dir_code d - 1) = Ok next_coord ->
  exists s',
    visit d tolerance cur_coord s f = Ok s'
    /\ (In f (found_vertex s') <-> dist next_coord cur_coord <= tolerance)
    /\ (dist next_coord cur_coord <= tolerance ->
        s' = mkState (network s) (possible_vertex s ++ [f])
                     (found_vertex s ++ [f]))
    /\ (dist next_coord cur_coord == tolerance ->
        In f (found_vertex s') /\ In f (possible_vertex s'))
    /\ (tolerance < dist next_coord cur_coord -> s' = s).
Proof.
  intros Hnot Hg Hn. unfold visit.
  apply mem_false in Hnot. rewrite Hnot, Hg. simpl. rewrite Hn. simpl.
  apply mem_false in Hnot.
  destruct (Qle_bool (dist next_coord cur_coord) tolerance) eqn:E.
  - apply Qle_bool_iff in E. eexists. split; [reflexivity|]. simpl.
    repeat split; intros; try (apply in_app_iff; right; now left); try assumption.
    exfalso. eapply Qlt_not_le; eassumption.
  - assert (E' : ~ dist next_coord cur_coord <= tolerance).
    { intros H. apply Qle_bool_iff in H. congruence. }
    exists s. split; [reflexivity|].
    repeat split; intros; try contradiction; try reflexivity.
    + exfalso. apply E'. rewrite H. apply Qle_refl.
    + exfalso. apply E'. rewrite H. apply Qle_refl.
Qed.

(** ** A starting id that is not in the network *)

Lemma fids_normalise net : map fst (rows (normalise net)) = map fst (rows net).
Proof.
  unfold normalise. destruct (String.eqb (crs net) EPSG27700); [reflexivity|].
  simpl. rewrite map_map. reflexivity.
Qed.

Lemma select_fid_absent net f : ~ In f (map fst net) -> select_fid net f = [].
Proof.
  intros H. destruct (select_fid net f) as [|r l] eqn:E; [reflexivity|].
  exfalso. apply H. eapply geometry_of_In. unfold geometry_of. now rewrite E.
Qed.

Lemma isin_nil net : isin net [] = [].
Proof. unfold isin. induction net as [|r l IH]; simpl; auto. Qed.

Lemma frame_eta net : mkFrame (crs net) (rows net) = net.
Proof. now destruct net. Qed.

(** C8: when the starting id is not an id of the network, the queue is
    seeded empty, the loop exits before its first iteration whatever number
    of iterations it is allowed, and both functions return normally with an
    empty selection and total length 0; the blockage variant leaves the
    caller's network as it was. *)
Theorem unknown_start_gives_empty_selection
  (starting_fid : fid) (net : GeoDataFrame) (blockage : BlockageFrame)
  (d : Direction) (tolerance : Q) :
  ~ In starting_fid (map fst (rows net)) ->
  possible_vertex (init starting_fid (rows (normalise net))) = []
  /\ (forall body fuel,
        while_loop body fuel (init starting_fid (rows (normalise net)))
        = Ok (init starting_fid (rows (normalise net))))
  /\ calcWaterCourseLength starting_fid net d tolerance
     = Ok (mkFrame (crs (normalise net)) [], 0)
  /\ calcWaterCourseLengthBlockage starting_fid net blockage d tolerance
     = Ok (mkOutcome net (mkFrame (crs (normalise net)) []) 0).
Proof.
  intros H. rewrite <- fids_normalise in H.
  assert (E : init starting_fid (rows (normalise net))
              = mkState (rows (normalise net)) [] []).
  { unfold init. now rewrite (select_fid_absent _ _ H). }
  assert (W : forall body fuel,
             while_loop body fuel (init starting_fid (rows (normalise net)))
             = Ok (init starting_fid (rows (normalise net)))).
  { intros body fuel. rewrite E. now destruct fuel. }
  split; [now rewrite E|]. split; [exact W|]. split.
  - unfold calcWaterCourseLength. cbv zeta. rewrite W, E. simpl.
    now rewrite isin_nil.
  - unfold calcWaterCourseLengthBlockage. cbv zeta. rewrite W, E. simpl.
    rewrite isin_nil. unfold normalise.
    destruct (String.eqb (crs net) EPSG27700); [|reflexivity].
    now rewrite frame_eta.
Qed.

(** ** No blockages *)

Lemma visit_blockage_nil d tol cur s f :
  visit_blockage [] d tol cur s f = visit d tol cur s f.
Proof. reflexivity. Qed.

Lemma visit_all_blockage_nil d tol cur fids s :
  visit_all_blockage [] d tol cur s fids = visit_all d tol cur s fids.
Proof.
  revert s. induction fids as [|f l IH]; intros s; simpl; [reflexivity|].
  rewrite visit_blockage_nil. destruct (visit d tol cur s f); simpl; auto.
Qed.

Lemma while_loop_ext body1 body2 :
  (forall net f rest found, body1 net f rest found = body2 net f rest found) ->
  forall fuel s, while_loop body1 fuel s = while_loop body2 fuel s.
Proof.
  intros H. induction fuel as [|n IH]; intros s; simpl;
    destruct (possible_vertex s); try reflexivity.
  rewrite H. destruct (body2 _ _ _ _); simpl; auto.
Qed.

(** C6: called with an empty blockage collection, the blockage variant
    returns the same selection and the same total length as the plain
    variant on the same network, start, direction and tolerance (and raises
    exactly when the plain variant raises). *)
Theorem empty_blockage_same_as_plain
  (starting_fid : fid) (net : GeoDataFrame) (blockage_crs : string)
  (d : Direction) (tolerance : Q) :
  fmap (fun o => (selected o, totalLength o))
       (calcWaterCourseLengthBlockage starting_fid net
          (mkBlockage blockage_crs []) d tolerance)
  = calcWaterCourseLength starting_fid net d tolerance.
Proof.
  unfold calcWaterCourseLengthBlockage, calcWaterCourseLength. cbv zeta.
  assert (E : bpoints (normalise_blockage (mkBlockage blockage_crs [])) = []).
  { unfold normalise_blockage. simpl.
    now destruct (String.eqb blockage_crs EPSG27700). }
  rewrite E.
  rewrite (while_loop_ext (iteration_blockage [] d tolerance)
                          (iteration d tolerance)).
  - destruct (while_loop _ _ _); reflexivity.
  - intros n f rest found. unfold iteration_blockage, iteration.
    destruct (geometry_of n f); simpl; try reflexivity.
    destruct (py_index _ _); simpl; try reflexivity.
    apply visit_all_blockage_nil.
Qed.

(** ** The vertex nearest to a blockage *)

(** The index the specification describes: position [k] holds a minimum of
    the distances, and every earlier position holds a strictly larger one
    (ties go to the lowest index). *)
Definition nearest_vertex_index (dists : list Q) (k : nat) : Prop :=
  exists dk,
    nth_error dists k = Some dk
    /\ (forall j dj, nth_error dists j = Some dj -> dk <= dj)
    /\ (forall j dj, (j < k)%nat -> nth_error dists j = Some dj -> dk < dj).

Lemma min_from_spec l : forall best,
  min_from best l <= best
  /\ (forall x, In x l -> min_from best l <= x)
  /\ (min_from best l = best \/ In (min_from best l) l).
Proof.
  induction l as [|x r IH]; intros best; simpl.
  - split; [apply Qle_refl|]. split; [intros x []|now left].
  - destruct (IH (if Qlt_bool x best then x else best)) as (A & B & C).
    unfold Qlt_bool in *.
    destruct (Qle_bool best x) eqn:E; simpl in *.
    + apply Qle_bool_iff in E. split; [assumption|]. split.
      * intros y [<-|Hy]; [eapply Qle_trans; eassumption | now apply B].
      * destruct C as [C|C]; [now left | right; now right].
    + assert (E' : x < best).
      { apply Qnot_le_lt. intros H. apply Qle_bool_iff in H. congruence. }
      split; [eapply Qle_trans; [exact A | now apply Qlt_le_weak]|]. split.
      * intros y [<-|Hy]; [assumption | now apply B].
      * right. destruct C as [C|C]; [left; now symmetry | now right].
Qed.

Lemma index_from_spec l v : forall i,
  (exists x, In x l /\ x == v) ->
  exists k x,
    index_from l v i = Ok (i + k)%nat
    /\ nth_error l k = Some x
    /\ x == v
    /\ (forall j y, (j < k)%nat -> nth_error l j = Some y -> ~ y == v).
Proof.
  induction l as [|a r IH]; intros i [x [Hin Hx]]; [destruct Hin|].
  simpl. destruct (Qeq_bool a v) eqn:E.
  - apply Qeq_bool_iff in E. exists 0%nat, a.
    rewrite Nat.add_0_r. repeat split; try assumption. intros j y Hj. lia.
  - apply Qeq_bool_neq in E.
    destruct Hin as [->|Hin]; [contradiction|].
    destruct (IH (S i) (ex_intro _ x (conj Hin Hx))) as (k & y & A & B & C & D).
    exists (S k), y. rewrite A. repeat split; try assumption.
    + f_equal. lia.
    + intros j z Hj Hz. destruct j as [|j]; simpl in Hz.
      * inversion Hz; subst. assumption.
      * apply (D j z); [lia | assumption].
Qed.

Lemma cut_index_spec (cs : coords) (b : point) :
  cs <> [] ->
  exists k, cut_index cs b = Ok k
            /\ nearest_vertex_index (blockage_dists cs b) k
            /\ (k < List.length cs)%nat.
Proof.
  intros Hne. unfold cut_index.
  destruct (blockage_dists cs b) as [|d0 ds] eqn:E.
  { destruct cs; [contradiction | discriminate]. }
  simpl. destruct (min_from_spec ds d0) as (A & B & C).
  set (m := min_from d0 ds) in *.
  assert (Hex : exists x, In x (d0 :: ds) /\ x == m).
  { exists m. split; [|reflexivity]. destruct C as [C|C]; [left; now symmetry | now right]. }
  destruct (index_from_spec (d0 :: ds) m 0%nat Hex) as (k & x & I1 & I2 & I3 & I4).
  exists k. unfold py_list_index. rewrite I1. split; [reflexivity|]. split.
  - exists x. split; [assumption|]. split.
    + intros j dj Hj. rewrite I3. apply nth_error_In in Hj.
      destruct Hj as [<-|Hj]; [assumption | now apply B].
    + intros j dj Hlt Hj.
      assert (Hle : m <= dj).
      { pose proof (nth_error_In _ _ Hj) as Hin.
        destruct Hin as [<-|Hin]; [assumption | now apply B]. }
      rewrite I3. apply Qle_lt_or_eq in Hle. destruct Hle as [Hl|He]; [assumption|].
      exfalso. apply (I4 j dj Hlt Hj). now symmetry.
  - assert (Hk : (k < List.length (d0 :: ds))%nat).
    { apply nth_error_Some. congruence. }
    rewrite <- E in Hk. unfold blockage_dists in Hk.
    now rewrite length_map in Hk.
Qed.

(** ** Truncation at a blockage *)

Lemma LineString_Ok cs line : LineString cs = Ok line -> line = cs.
Proof.
  destruct cs as [|a [|b l]]; simpl; intros H; try discriminate;
    now inversion H.
Qed.

Lemma py_index_nonempty {A} (l : list A) i x : py_index l i = Ok x -> l <> [].
Proof.
  intros H ->. unfold py_index in H. cbn [List.length Z.of_nat] in H.
  destruct ((if (i <? 0)%Z then (0 + i)%Z else i) <? 0)%Z eqn:E1;
    cbn [orb] in H; [discriminate|].
  destruct (0 <=? (if (i <? 0)%Z then (0 + i)%Z else i))%Z eqn:E2;
    [discriminate|].
  apply Z.ltb_ge in E1. apply Z.leb_gt in E2. lia.
Qed.

Lemma select_fid_set_geometry_same net f line :
  select_fid (set_geometry net f line) f
  = map (fun r : row => (fst r, line)) (select_fid net f).
Proof.
  unfold select_fid, set_geometry.
  induction net as [|r l IH]; simpl; [reflexivity|].
  destruct (String.eqb (fst r) f) eqn:E; simpl; rewrite E; simpl;
    now rewrite IH.
Qed.

Lemma select_fid_set_geometry_other net f g line :
  g <> f -> select_fid (set_geometry net f line) g = select_fid net g.
Proof.
  intros Hne. unfold select_fid, set_geometry.
  induction net as [|r l IH]; simpl; [reflexivity|].
  destruct (String.eqb (fst r) f) eqn:E; simpl.
  - apply String.eqb_eq in E.
    assert (E2 : String.eqb (fst r) g = false).
    { apply String.eqb_neq. congruence. }
    now rewrite E2, IH.
  - destruct (String.eqb (fst r) g); now rewrite IH.
Qed.

(** C1: for a connected candidate with a blockage point [b] within the
    buffer of its geometry, the step builds the line string of the vertices
    strictly before index [k] and stores it as the candidate's geometry,
    where [k] is the index of a vertex at minimum distance to [b] and every
    earlier vertex is strictly farther (ties go to the lowest index); when
    the step returns, every row of the candidate holds exactly that
    prefix. *)
Theorem blocked_candidate_cut_before_nearest_vertex
  (blockage : list point) (d : Direction) (tolerance : Q) (cur_coord : point)
  (s : state) (f : fid) (cs : coords) (next_coord b : point) (bs : list point) :
  ~ In f (found_vertex s) ->
  geometry_of (network s) f = Ok cs ->
  py_index cs (dir_code d - 1) = Ok next_coord ->
  dist next_coord cur_coord <= tolerance ->
  the_blockage_of blockage (select_fid (network s) f) = b :: bs ->
  exists k,
    nearest_vertex_index (blockage_dists cs b) k
    /\ (k < List.length cs)%nat
    /\ visit_blockage blockage d tolerance cur_coord s f
       = (line <- LineString (firstn k cs) ;;
          Ok (mkState (set_geometry (network s) f line)
                      (possible_vertex s) (found_vertex s ++ [f])))
    /\ (forall s',
          visit_blockage blockage d tolerance cur_coord s f = Ok s' ->
          network s' = set_geometry (network s) f (firstn k cs)
          /\ geometry_of (network s') f = Ok (firstn k cs)
          /\ (forall r, In r (select_fid (network s') f) ->
                        snd r = firstn k cs)).
Proof.
  intros Hnot Hg Hn Hd Hb.
  destruct (cut_index_spec cs b (py_index_nonempty _ _ _ Hn)) as (k & K1 & K2 & K3).
  exists k. split; [assumption|]. split; [assumption|].
  assert (Hv : visit_blockage blockage d tolerance cur_coord s f
               = (line <- LineString (firstn k cs) ;;
                  Ok (mkState (set_geometry (network s) f line)
                              (possible_vertex s) (found_vertex s ++ [f])))).
  { unfold visit_blockage. apply mem_false in Hnot. rewrite Hnot.
    unfold geometry_of in Hg. rewrite Hg. simpl. rewrite Hn. simpl.
    apply Qle_bool_iff in Hd. rewrite Hd, Hb, K1. reflexivity. }
  split; [exact Hv|].
  intros s' Hs. rewrite Hv in Hs.
  destruct (LineString (firstn k cs)) as [line| |] eqn:EL; simpl in Hs;
    try discriminate.
  apply LineString_Ok in EL. subst line. inversion Hs; subst s'. simpl.
  split; [reflexivity|]. split.
  - unfold geometry_of in *. rewrite select_fid_set_geometry_same.
    destruct (select_fid (network s) f); simpl in *; [discriminate|reflexivity].
  - intros r Hr. rewrite select_fid_set_geometry_same in Hr.
    apply in_map_iff in Hr. destruct Hr as (r' & <- & _). reflexivity.
Qed.

(** ** Exploration stops at a blockage *)

(** The leading endpoint of a segment and the far endpoint of a candidate
    (lines 106 and 126). *)
Definition leading (net : list row) (d : Direction) (f : fid) : result point :=
  cs <- geometry_of net f ;; py_index cs (0 - dir_code d).

Definition far_end (net : list row) (d : Direction) (f : fid) : result point :=
  cs <- geometry_of net f ;; py_index cs (dir_code d - 1).

(** [link net d tol p c]: in the network [net], [c] is a connected candidate
    of [p]: the proximity query around the leading endpoint of [p] returns
    [c], and the far endpoint of [c] is within the tolerance of it. *)
Definition link (net : list row) (d : Direction) (tolerance : Q) (p c : fid)
  : Prop :=
  exists cur nxt,
    leading net d p = Ok cur
    /\ In c (potential_fids net cur tolerance)
    /\ far_end net d c = Ok nxt
    /\ dist nxt cur <= tolerance.

(** A blockage point lies within the buffer of the segment's geometry. *)
Definition blocked (blockage : list point) (net : list row) (f : fid) : Prop :=
  the_blockage_of blockage (select_fid net f) <> [].

(** The segments the traversal may explore: the start, and every connected
    candidate of such a segment that no blockage affects. *)
Inductive explorable (blockage : list point) (net : list row) (d : Direction)
  (tolerance : Q) (start : fid) : fid -> Prop :=
| explorable_start :
    In start (map fst net) -> explorable blockage net d tolerance start start
| explorable_next p c :
    explorable blockage net d tolerance start p ->
    link net d tolerance p c ->
    ~ blocked blockage net c ->
    explorable blockage net d tolerance start c.

Lemma explorable_unblocked blockage net d tol start f :
  explorable blockage net d tol start f ->
  f = start \/ ~ blocked blockage net f.
Proof. destruct 1; [now left | now right]. Qed.

Lemma potential_fids_In net cur tol c :
  In c (potential_fids net cur tol)
  <-> exists r, In r (select_fid net c)
                /\ intersects (snd r) (buffer cur tol) = true.
Proof.
  unfold potential_fids. rewrite in_map_iff. split.
  - intros (r & <- & Hr). apply filter_In in Hr. exists r. split; [|tauto].
    apply select_fid_In. tauto.
  - intros (r & Hr & Hi). apply select_fid_In in Hr. exists r.
    split; [tauto|]. apply filter_In. tauto.
Qed.

(** The state of a run of the blockage variant over the network [net0]. *)
Record sound (blockage : list point) (net0 : list row) (d : Direction)
  (tolerance : Q) (start : fid) (s : state) : Prop := mkSound {
  sound_queue : forall f, In f (possible_vertex s) ->
                          explorable blockage net0 d tolerance start f;
  sound_found : forall f, In f (found_vertex s) ->
                          f = start
                          \/ exists p, explorable blockage net0 d tolerance start p
                                       /\ link net0 d tolerance p f;
  sound_unfound : forall f, ~ In f (found_vertex s) ->
                            select_fid (network s) f = select_fid net0 f;
  sound_queue_rows : forall f, In f (possible_vertex s) ->
                               select_fid (network s) f = select_fid net0 f;
  sound_incl : incl (possible_vertex s) (found_vertex s)
}.

Lemma sound_init blockage net0 d tol start :
  sound blockage net0 d tol start (init start net0).
Proof.
  assert (H : forall f, In f (map fst (select_fid net0 start)) ->
                        f = start /\ In start (map fst net0)).
  { intros f Hf. apply in_map_iff in Hf. destruct Hf as (r & <- & Hr).
    apply select_fid_In in Hr. destruct Hr as [Hr <-]. split; [reflexivity|].
    now apply in_map. }
  split; simpl; try reflexivity.
  - intros f Hf. destruct (H f Hf) as [-> Hin]. now constructor.
  - intros f Hf. left. now destruct (H f Hf).
  - intros x Hx. exact Hx.
Qed.

Lemma visit_blockage_sound blockage net0 d tol start p cur s c s' :
  sound blockage net0 d tol start s ->
  explorable blockage net0 d tol start p ->
  leading net0 d p = Ok cur ->
  (~ In c (found_vertex s) -> In c (potential_fids net0 cur tol)) ->
  visit_blockage blockage d tol cur s c = Ok s' ->
  sound blockage net0 d tol start s'.
Proof.
  intros S Hp Hcur Hc H. unfold visit_blockage in H.
  destruct (mem c (found_vertex s)) eqn:Hm.
  { inversion H; subst. assumption. }
  apply mem_false in Hm. specialize (Hc Hm).
  pose proof (sound_unfound _ _ _ _ _ _ S c Hm) as Hrows.
  rewrite Hrows in H.
  destruct (iloc0 (map snd (select_fid net0 c))) as [cs| |] eqn:E1;
    simpl in H; try discriminate.
  destruct (py_index cs (dir_code d - 1)) as [nxt| |] eqn:E2;
    simpl in H; try discriminate.
  destruct (Qle_bool (dist nxt cur) tol) eqn:E3;
    [|inversion H; subst; assumption].
  apply Qle_bool_iff in E3.
  assert (L : link net0 d tol p c).
  { exists cur, nxt. repeat split; try assumption.
    unfold far_end, geometry_of. rewrite E1. simpl. exact E2. }
  destruct S as [S1 S2 S3 S4 S5].
  destruct (the_blockage_of blockage (select_fid net0 c)) as [|b bs] eqn:E4.
  - inversion H; subst s'; clear H. split; simpl.
    + intros f Hf. apply in_app_iff in Hf. destruct Hf as [Hf|[<-|[]]].
      * now apply S1.
      * eapply explorable_next; [exact Hp | exact L |].
        unfold blocked. now rewrite E4.
    + intros f Hf. apply in_app_iff in Hf. destruct Hf as [Hf|[<-|[]]].
      * now apply S2.
      * right. exists p. split; assumption.
    + intros f Hf. apply S3. intros Hin. apply Hf. apply in_app_iff. now left.
    + intros f Hf. apply in_app_iff in Hf. destruct Hf as [Hf|[<-|[]]].
      * now apply S4.
      * assumption.
    + intros x Hx. apply in_app_iff in Hx. apply in_app_iff.
      destruct Hx as [Hx|Hx]; [left; now apply S5 | now right].
  - destruct (cut_index cs b) as [k| |]; simpl in H; try discriminate.
    destruct (LineString (firstn k cs)) as [line| |]; simpl in H;
      try discriminate.
    inversion H; subst s'; clear H. split; simpl.
    + assumption.
    + intros f Hf. apply in_app_iff in Hf. destruct Hf as [Hf|[<-|[]]].
      * now apply S2.
      * right. exists p. split; assumption.
    + intros f Hf.
      assert (Hne : f <> c).
      { intros ->. apply Hf. apply in_app_iff. right. now left. }
      rewrite select_fid_set_geometry_other by assumption.
      apply S3. intros Hin. apply Hf. apply in_app_iff. now left.
    + intros f Hf.
      assert (Hne : f <> c).
      { intros ->. apply Hm. now apply S5. }
      rewrite select_fid_set_geometry_other by assumption. now apply S4.
    + intros x Hx. apply in_app_iff. left. now apply S5.
Qed.

Lemma visit_all_blockage_sound blockage net0 d tol start p cur fids :
  forall s s',
  sound blockage net0 d tol start s ->
  explorable blockage net0 d tol start p ->
  leading net0 d p = Ok cur ->
  (forall c, In c fids -> ~ In c (found_vertex s) ->
             In c (potential_fids net0 cur tol)) ->
  visit_all_blockage blockage d tol cur s fids = Ok s' ->
  sound blockage net0 d tol start s'.
Proof.
  induction fids as [|c l IH]; simpl; intros s s' S Hp Hcur Hc H.
  - inversion H; subst. assumption.
  - bind_case H.
    pose proof (visit_blockage_grows _ _ _ _ _ _ _ E) as Hg.
    apply (IH a s'); try assumption.
    + eapply visit_blockage_sound; try eassumption.
      apply Hc. now left.
    + intros c' Hc' Hn. apply Hc; [now right|].
      destruct (grows_sets _ _ Hg) as (new & _ & A & _).
      intros Hin. apply Hn. rewrite A. apply in_app_iff. now left.
Qed.

Lemma iteration_blockage_sound blockage net0 d tol start s f rest s' :
  sound blockage net0 d tol start s ->
  possible_vertex s = f :: rest ->
  iteration_blockage blockage d tol (network s) f rest (found_vertex s) = Ok s' ->
  sound blockage net0 d tol start s'.
Proof.
  intros S Hq H. unfold iteration_blockage in H.
  destruct S as [S1 S2 S3 S4 S5].
  assert (Hf : In f (possible_vertex s)) by (rewrite Hq; now left).
  assert (Hg : geometry_of (network s) f = geometry_of net0 f).
  { unfold geometry_of. now rewrite (S4 f Hf). }
  rewrite Hg in H.
  destruct (geometry_of net0 f) as [cs| |] eqn:E1; cbn [bind] in H;
    try discriminate.
  destruct (py_index cs (0 - dir_code d)) as [cur| |] eqn:E2; cbn [bind] in H;
    try discriminate.
  eapply (visit_all_blockage_sound blockage net0 d tol start f cur);
    [ | apply S1; exact Hf | | | exact H].
  - split; simpl.
    + intros g Hg'. apply S1. rewrite Hq. now right.
    + assumption.
    + assumption.
    + intros g Hg'. apply S4. rewrite Hq. now right.
    + intros x Hx. apply S5. rewrite Hq. now right.
  - unfold leading. rewrite E1. simpl. exact E2.
  - simpl. intros c Hc Hn. apply potential_fids_In in Hc.
    apply potential_fids_In. now rewrite <- (S3 c Hn).
Qed.

Lemma reaches_sound blockage net0 d tol start s s' :
  reaches (iteration_blockage blockage d tol) s s' ->
  sound blockage net0 d tol start s ->
  sound blockage net0 d tol start s'.
Proof.
  induction 1 as [s | s f rest s' s'' Hq Hb Hr IH]; intros S; [assumption|].
  apply IH. eapply iteration_blockage_sound; eassumption.
Qed.

(** ** Every connected candidate of an explored segment is visited *)

(** All connected candidates of [f] are in the visited list. *)
Definition done (net0 : list row) (d : Direction) (tolerance : Q)
  (found : list fid) (f : fid) : Prop :=
  forall c, link net0 d tolerance f c -> In c found.

(** [current] is the segment popped by the iteration under way, if any. *)
Record thorough (blockage : list point) (net0 : list row) (d : Direction)
  (tolerance : Q) (start : fid) (current : option fid) (s : state)
  : Prop := mkThorough {
  thorough_start : In start (map fst net0) -> In start (found_vertex s);
  thorough_found : forall f,
      In f (found_vertex s) ->
      f = start \/ ~ blocked blockage net0 f ->
      In f (possible_vertex s)
      \/ Some f = current
      \/ done net0 d tolerance (found_vertex s) f
}.

Lemma thorough_init blockage net0 d tol start :
  thorough blockage net0 d tol start None (init start net0).
Proof.
  split; simpl.
  - intros H. apply in_map_iff in H. destruct H as (r & E & Hr).
    apply in_map_iff. exists r. split; [assumption|].
    apply select_fid_In. tauto.
  - intros f Hf _. now left.
Qed.

Lemma done_mono net0 d tol found new f :
  done net0 d tol found f -> done net0 d tol (found ++ new) f.
Proof. intros H c L. apply in_app_iff. left. now apply H. Qed.

Lemma visit_blockage_thorough blockage net0 d tol start p cur s c s' :
  sound blockage net0 d tol start s ->
  thorough blockage net0 d tol start (Some p) s ->
  visit_blockage blockage d tol cur s c = Ok s' ->
  thorough blockage net0 d tol start (Some p) s'.
Proof.
  intros S [T1 T2] H. unfold visit_blockage in H.
  destruct (mem c (found_vertex s)) eqn:Hm.
  { inversion H; subst. now split. }
  apply mem_false in Hm.
  pose proof (sound_unfound _ _ _ _ _ _ S c Hm) as Hrows.
  rewrite Hrows in H.
  destruct (iloc0 (map snd (select_fid net0 c))) as [cs| |] eqn:E1;
    cbn [bind] in H; try discriminate.
  assert (Hin : In c (map fst net0)) by (eapply geometry_of_In; exact E1).
  destruct (py_index cs (dir_code d - 1)) as [nxt| |] eqn:E2;
    cbn [bind] in H; try discriminate.
  destruct (Qle_bool (dist nxt cur) tol); [|inversion H; subst; now split].
  destruct (the_blockage_of blockage (select_fid net0 c)) as [|b bs] eqn:E4.
  - inversion H; subst s'; clear H. split; simpl.
    + intros Hs. apply in_app_iff. left. now apply T1.
    + intros f Hf Hu. apply in_app_iff in Hf. destruct Hf as [Hf|[<-|[]]].
      * destruct (T2 f Hf Hu) as [A|[A|A]].
        -- left. apply in_app_iff. now left.
        -- right. now left.
        -- right. right. now apply done_mono.
      * left. apply in_app_iff. right. now left.
  - destruct (cut_index cs b) as [k| |]; cbn [bind] in H; try discriminate.
    destruct (LineString (firstn k cs)) as [line| |]; cbn [bind] in H;
      try discriminate.
    inversion H; subst s'; clear H. split; simpl.
    + intros Hs. apply in_app_iff. left. now apply T1.
    + intros f Hf Hu. apply in_app_iff in Hf. destruct Hf as [Hf|[<-|[]]].
      * destruct (T2 f Hf Hu) as [A|[A|A]].
        -- now left.
        -- right. now left.
        -- right. right. now apply done_mono.
      * exfalso. destruct Hu as [->|Hu].
        -- apply Hm. now apply T1.
        -- apply Hu. unfold blocked. rewrite E4. discriminate.
Qed.

Lemma visit_blockage_links blockage net0 d tol start cur s c s' nxt :
  sound blockage net0 d tol start s ->
  visit_blockage blockage d tol cur s c = Ok s' ->
  far_end net0 d c = Ok nxt ->
  dist nxt cur <= tol ->
  In c (found_vertex s').
Proof.
  intros S H Hf Hd. unfold visit_blockage in H.
  destruct (mem c (found_vertex s)) eqn:Hm.
  { inversion H; subst. now apply mem_In. }
  apply mem_false in Hm.
  rewrite (sound_unfound _ _ _ _ _ _ S c Hm) in H.
  unfold far_end, geometry_of in Hf.
  destruct (iloc0 (map snd (select_fid net0 c))) as [cs| |];
    cbn [bind] in H, Hf; try discriminate.
  rewrite Hf in H. cbn [bind] in H.
  apply Qle_bool_iff in Hd. rewrite Hd in H.
  destruct (the_blockage_of blockage (select_fid net0 c)) as [|b bs].
  - inversion H; subst s'. simpl. apply in_app_iff. right. now left.
  - destruct (cut_index cs b) as [k| |]; cbn [bind] in H; try discriminate.
    destruct (LineString (firstn k cs)) as [line| |]; cbn [bind] in H;
      try discriminate.
    inversion H; subst s'. simpl. apply in_app_iff. right. now left.
Qed.

Lemma visit_all_blockage_thorough blockage net0 d tol start p cur fids :
  forall s s',
  sound blockage net0 d tol start s ->
  thorough blockage net0 d tol start (Some p) s ->
  explorable blockage net0 d tol start p ->
  leading net0 d p = Ok cur ->
  (forall c, In c fids -> ~ In c (found_vertex s) ->
             In c (potential_fids net0 cur tol)) ->
  visit_all_blockage blockage d tol cur s fids = Ok s' ->
  thorough blockage net0 d tol start (Some p) s'
  /\ (forall c nxt, In c fids -> far_end net0 d c = Ok nxt ->
                    dist nxt cur <= tol -> In c (found_vertex s')).
Proof.
  induction fids as [|c l IH]; simpl; intros s s' S T Hp Hcur Hc H.
  - inversion H; subst. split; [assumption|]. intros c nxt [].
  - destruct (visit_blockage blockage d tol cur s c) as [s1| |] eqn:E;
      cbn [bind] in H; try discriminate.
    pose proof (visit_blockage_grows _ _ _ _ _ _ _ E) as Hg.
    destruct (grows_sets _ _ Hg) as (new & _ & A & _).
    assert (S1 : sound blockage net0 d tol start s1).
    { eapply visit_blockage_sound; try eassumption. apply Hc. now left. }
    assert (Hc1 : forall c', In c' l -> ~ In c' (found_vertex s1) ->
                             In c' (potential_fids net0 cur tol)).
    { intros c' Hc' Hn. apply Hc; [now right|].
      intros Hin. apply Hn. rewrite A. apply in_app_iff. now left. }
    destruct (IH s1 s' S1 (visit_blockage_thorough _ _ _ _ _ _ _ _ _ _ S T E)
                 Hp Hcur Hc1 H) as [T' L'].
    split; [assumption|].
    intros c' nxt [<-|Hin] Hf Hd.
    + pose proof (visit_blockage_links _ _ _ _ _ _ _ _ _ _ S E Hf Hd) as Hin1.
      pose proof (visit_all_blockage_grows _ _ _ _ _ _ _ H) as Hg2.
      destruct (grows_sets _ _ Hg2) as (new2 & _ & A2 & _).
      rewrite A2. apply in_app_iff. now left.
    + eapply L'; eassumption.
Qed.

Lemma iteration_blockage_thorough blockage net0 d tol start s f rest s' :
  sound blockage net0 d tol start s ->
  thorough blockage net0 d tol start None s ->
  possible_vertex s = f :: rest ->
  iteration_blockage blockage d tol (network s) f rest (found_vertex s) = Ok s' ->
  thorough blockage net0 d tol start None s'.
Proof.
  intros S T Hq H.
  pose proof (iteration_blockage_sound _ _ _ _ _ _ _ _ _ S Hq H) as S'.
  unfold iteration_blockage in H.
  assert (Hf : In f (possible_vertex s)) by (rewrite Hq; now left).
  assert (Hg : geometry_of (network s) f = geometry_of net0 f).
  { unfold geometry_of. now rewrite (sound_queue_rows _ _ _ _ _ _ S f Hf). }
  rewrite Hg in H.
  destruct (geometry_of net0 f) as [cs| |] eqn:E1; cbn [bind] in H;
    try discriminate.
  destruct (py_index cs (0 - dir_code d)) as [cur| |] eqn:E2; cbn [bind] in H;
    try discriminate.
  assert (Hlead : leading net0 d f = Ok cur).
  { unfold leading. rewrite E1. cbn [bind]. exact E2. }
  pose proof (visit_all_blockage_grows _ _ _ _ _ _ _ H) as Hgr.
  destruct (grows_sets _ _ Hgr) as (new & newq & A & B & _). simpl in A, B.
  destruct S as [S1 S2 S3 S4 S5]. destruct T as [T1 T2].
  destruct (visit_all_blockage_thorough blockage net0 d tol start f cur
              (potential_fids (network s) cur tol)
              (mkState (network s) rest (found_vertex s)) s') as [[T1' T2'] L];
    try assumption.
  - split; simpl; try assumption.
    + intros g Hg'. apply S1. rewrite Hq. now right.
    + intros g Hg'. apply S4. rewrite Hq. now right.
    + intros x Hx. apply S5. rewrite Hq. now right.
  - split; simpl; [assumption|].
    intros g Hg' Hu. destruct (T2 g Hg' Hu) as [X|[X|X]].
    + rewrite Hq in X. destruct X as [<-|X]; [right; now left | now left].
    + discriminate.
    + right. now right.
  - now apply S1.
  - simpl. intros c Hc Hn. apply potential_fids_In in Hc.
    apply potential_fids_In. now rewrite <- (S3 c Hn).
  - split; [assumption|].
    intros g Hg' Hu. destruct (T2' g Hg' Hu) as [X|[X|X]];
      [now left | | right; now right].
    inversion X; subst g. right. right.
    intros c (cur' & nxt & L1 & L2 & L3 & L4).
    rewrite Hlead in L1. inversion L1; subst cur'.
    destruct (mem c (found_vertex s)) eqn:Hm.
    + apply mem_In in Hm. rewrite A. apply in_app_iff. now left.
    + apply mem_false in Hm. apply (L c nxt); try assumption.
      apply potential_fids_In in L2. apply potential_fids_In.
      now rewrite (S3 c Hm).
Qed.

Lemma reaches_sound_thorough blockage net0 d tol start s s' :
  reaches (iteration_blockage blockage d tol) s s' ->
  sound blockage net0 d tol start s ->
  thorough blockage net0 d tol start None s ->
  sound blockage net0 d tol start s'
  /\ thorough blockage net0 d tol start None s'.
Proof.
  induction 1 as [s | s f rest s' s'' Hq Hb Hr IH]; intros S T; [now split|].
  apply IH.
  - eapply iteration_blockage_sound; eassumption.
  - eapply iteration_blockage_thorough; eassumption.
Qed.

(** At the exit of the loop every explorable segment is visited, together
    with all its connected candidates. *)
Lemma explorable_visited blockage net0 d tol start s :
  reaches (iteration_blockage blockage d tol) (init start net0) s ->
  possible_vertex s = [] ->
  forall f, explorable blockage net0 d tol start f ->
            In f (found_vertex s) /\ done net0 d tol (found_vertex s) f.
Proof.
  intros Hr Hq.
  destruct (reaches_sound_thorough _ _ _ _ _ _ _ Hr
              (sound_init _ _ _ _ _) (thorough_init _ _ _ _ _)) as [_ [T1 T2]].
  assert (D : forall f, In f (found_vertex s) ->
                        f = start \/ ~ blocked blockage net0 f ->
                        done net0 d tol (found_vertex s) f).
  { intros f Hf Hu. destruct (T2 f Hf Hu) as [X|[X|X]].
    - rewrite Hq in X. destruct X.
    - discriminate.
    - assumption. }
  induction 1 as [Hs | p c Hp IH L Hb].
  - split; [now apply T1|]. apply D; [now apply T1 | now left].
  - destruct IH as [_ IH]. pose proof (IH c L) as Hc.
    split; [assumption|]. apply D; [assumption | now right].
Qed.

(** ** The effect of a run on the stored geometries *)

(** [g] is the geometry of [f] in [net0] cut before the vertex nearest to
    the first blockage point within its buffer. *)
Definition cut_of (blockage : list point) (net0 : list row) (f : fid)
  (g : coords) : Prop :=
  exists cs b bs k,
    geometry_of net0 f = Ok cs
    /\ the_blockage_of blockage (select_fid net0 f) = b :: bs
    /\ cut_index cs b = Ok k
    /\ g = firstn k cs.

(** A row [r] of the current network against the row [r0] of the network at
    the start of the run: the same id, and the same geometry unless the id
    is a visited segment other than the start whose geometry was cut. *)
Definition row_kept (blockage : list point) (net0 : list row) (start : fid)
  (found : list fid) (r0 r : row) : Prop :=
  fst r = fst r0
  /\ (snd r = snd r0
      \/ (In (fst r0) found /\ fst r0 <> start
          /\ cut_of blockage net0 (fst r0) (snd r))).

Definition framed (blockage : list point) (net0 : list row) (start : fid)
  (s : state) : Prop :=
  (In start (map fst net0) -> In start (found_vertex s))
  /\ Forall2 (row_kept blockage net0 start (found_vertex s)) net0 (network s).

Lemma Forall2_same {A} (R : A -> A -> Prop) (l : list A) :
  (forall x, R x x) -> Forall2 R l l.
Proof. intros H. induction l; constructor; auto. Qed.

Lemma Forall2_map_r {A B} (R : A -> B -> Prop) (f : B -> B) l l' :
  Forall2 R l l' ->
  (forall x y, R x y -> R x (f y)) ->
  Forall2 R l (map f l').
Proof. induction 1; intros H'; simpl; constructor; auto. Qed.

Lemma Forall2_weaken {A B} (R R' : A -> B -> Prop) l l' :
  Forall2 R l l' -> (forall x y, R x y -> R' x y) -> Forall2 R' l l'.
Proof. induction 1; intros H'; constructor; auto. Qed.

Lemma row_kept_mono blockage net0 start found found' r0 r :
  incl found found' ->
  row_kept blockage net0 start found r0 r ->
  row_kept blockage net0 start found' r0 r.
Proof.
  intros Hi [A [B|(B1 & B2 & B3)]]; split; auto.
Qed.

Lemma framed_init blockage net0 start :
  framed blockage net0 start (init start net0).
Proof.
  split.
  - simpl. intros H. apply in_map_iff in H. destruct H as (r & E & Hr).
    apply in_map_iff. exists r. split; [assumption|].
    apply select_fid_In. tauto.
  - apply Forall2_same. intros r. split; auto.
Qed.

Lemma visit_blockage_framed blockage net0 d tol start cur s c s' :
  sound blockage net0 d tol start s ->
  framed blockage net0 start s ->
  visit_blockage blockage d tol cur s c = Ok s' ->
  framed blockage net0 start s'.
Proof.
  intros S [F1 F2] H. unfold visit_blockage in H.
  destruct (mem c (found_vertex s)) eqn:Hm.
  { inversion H; subst. now split. }
  apply mem_false in Hm.
  rewrite (sound_unfound _ _ _ _ _ _ S c Hm) in H.
  destruct (iloc0 (map snd (select_fid net0 c))) as [cs| |] eqn:E1;
    cbn [bind] in H; try discriminate.
  assert (Hin : In c (map fst net0)) by (eapply geometry_of_In; exact E1).
  destruct (py_index cs (dir_code d - 1)) as [nxt| |] eqn:E2;
    cbn [bind] in H; try discriminate.
  destruct (Qle_bool (dist nxt cur) tol); [|inversion H; subst; now split].
  assert (Hi : incl (found_vertex s) (found_vertex s ++ [c])).
  { intros x Hx. apply in_app_iff. now left. }
  destruct (the_blockage_of blockage (select_fid net0 c)) as [|b bs] eqn:E4.
  - inversion H; subst s'; clear H. split; simpl.
    + intros Hs. apply Hi. now apply F1.
    + eapply Forall2_weaken; [exact F2|].
      intros x y. now apply row_kept_mono.
  - destruct (cut_index cs b) as [k| |] eqn:E5; cbn [bind] in H;
      try discriminate.
    destruct (LineString (firstn k cs)) as [line| |] eqn:E6; cbn [bind] in H;
      try discriminate.
    apply LineString_Ok in E6. subst line.
    inversion H; subst s'; clear H. split; simpl.
    + intros Hs. apply Hi. now apply F1.
    + unfold set_geometry. apply Forall2_map_r.
      * eapply Forall2_weaken; [exact F2|].
        intros x y. now apply row_kept_mono.
      * intros r0 r [A B]. destruct (String.eqb (fst r) c) eqn:E; [|now split].
        apply String.eqb_eq in E. simpl. split; [assumption|]. right.
        rewrite <- A, E. split; [apply in_app_iff; right; now left|].
        split.
        -- intros ->. apply Hm. now apply F1.
        -- exists cs, b, bs, k. unfold geometry_of. tauto.
Qed.

Lemma visit_all_blockage_framed blockage net0 d tol start p cur fids :
  forall s s',
  sound blockage net0 d tol start s ->
  framed blockage net0 start s ->
  explorable blockage net0 d tol start p ->
  leading net0 d p = Ok cur ->
  (forall c, In c fids -> ~ In c (found_vertex s) ->
             In c (potential_fids net0 cur tol)) ->
  visit_all_blockage blockage d tol cur s fids = Ok s' ->
  framed blockage net0 start s'.
Proof.
  induction fids as [|c l IH]; simpl; intros s s' S F Hp Hcur Hc H.
  - inversion H; subst. assumption.
  - destruct (visit_blockage blockage d tol cur s c) as [s1| |] eqn:E;
      cbn [bind] in H; try discriminate.
    pose proof (visit_blockage_grows _ _ _ _ _ _ _ E) as Hg.
    destruct (grows_sets _ _ Hg) as (new & _ & A & _).
    apply (IH s1 s'); try assumption.
    + eapply visit_blockage_sound; try eassumption. apply Hc. now left.
    + eapply visit_blockage_framed; eassumption.
    + intros c' Hc' Hn. apply Hc; [now right|].
      intros Hin. apply Hn. rewrite A. apply in_app_iff. now left.
Qed.

Lemma iteration_blockage_framed blockage net0 d tol start s f rest s' :
  sound blockage net0 d tol start s ->
  framed blockage net0 start s ->
  possible_vertex s = f :: rest ->
  iteration_blockage blockage d tol (network s) f rest (found_vertex s) = Ok s' ->
  framed blockage net0 start s'.
Proof.
  intros S F Hq H. unfold iteration_blockage in H.
  assert (Hf : In f (possible_vertex s)) by (rewrite Hq; now left).
  assert (Hg : geometry_of (network s) f = geometry_of net0 f).
  { unfold geometry_of. now rewrite (sound_queue_rows _ _ _ _ _ _ S f Hf). }
  rewrite Hg in H.
  destruct (geometry_of net0 f) as [cs| |] eqn:E1; cbn [bind] in H;
    try discriminate.
  destruct (py_index cs (0 - dir_code d)) as [cur| |] eqn:E2; cbn [bind] in H;
    try discriminate.
  destruct S as [S1 S2 S3 S4 S5].
  eapply (visit_all_blockage_framed blockage net0 d tol start f cur);
    [ | | apply S1; exact Hf | | | exact H].
  - split; simpl; try assumption.
    + intros g Hg'. apply S1. rewrite Hq. now right.
    + intros g Hg'. apply S4. rewrite Hq. now right.
    + intros x Hx. apply S5. rewrite Hq. now right.
  - exact F.
  - unfold leading. rewrite E1. cbn [bind]. exact E2.
  - simpl. intros c Hc Hn. apply potential_fids_In in Hc.
    apply potential_fids_In. now rewrite <- (S3 c Hn).
Qed.

Lemma reaches_framed blockage net0 d tol start s s' :
  reaches (iteration_blockage blockage d tol) s s' ->
  sound blockage net0 d tol start s ->
  framed blockage net0 start s ->
  framed blockage net0 start s'.
Proof.
  induction 1 as [s | s f rest s' s'' Hq Hb Hr IH]; intros S F; [assumption|].
  apply IH.
  - eapply iteration_blockage_sound; eassumption.
  - eapply iteration_blockage_framed; eassumption.
Qed.

(** The rows of the starting segment are never rewritten. *)
Lemma framed_start_rows blockage net0 start s :
  framed blockage net0 start s ->
  select_fid (network s) start = select_fid net0 start.
Proof.
  intros [_ F]. unfold select_fid.
  induction F as [|r0 r l0 l [A B] F IH]; simpl; [reflexivity|].
  rewrite A. destruct (String.eqb (fst r0) start) eqn:E; [|exact IH].
  apply String.eqb_eq in E. destruct B as [B|(_ & B & _)]; [|contradiction].
  rewrite IH. f_equal. destruct r, r0; simpl in *; congruence.
Qed.

Lemma select_fid_isin net found f :
  In f found -> select_fid (isin net found) f = select_fid net f.
Proof.
  intros H. unfold select_fid, isin.
  induction net as [|r l IH]; simpl; [reflexivity|].
  destruct (mem (fst r) found) eqn:Hm; simpl.
  - now rewrite IH.
  - destruct (String.eqb (fst r) f) eqn:E; [|exact IH].
    apply String.eqb_eq in E. apply mem_false in Hm. now subst.
Qed.

Lemma fids_isin net found f :
  In f (map fst (isin net found)) <-> In f (map fst net) /\ In f found.
Proof.
  unfold isin. rewrite !in_map_iff. split.
  - intros (r & <- & Hr). apply filter_In in Hr. destruct Hr as [Hr Hm].
    apply mem_In in Hm. split; [exists r; tauto | assumption].
  - intros [(r & <- & Hr) Hf]. exists r. split; [reflexivity|].
    apply filter_In. split; [assumption | now apply mem_In].
Qed.

(** What a normal return of the blockage variant says about its run. *)
Lemma calcWaterCourseLengthBlockage_Ok start net blockage d tol o :
  calcWaterCourseLengthBlockage start net blockage d tol = Ok o ->
  exists s,
    reaches (iteration_blockage (bpoints (normalise_blockage blockage)) d tol)
            (init start (rows (normalise net))) s
    /\ possible_vertex s = []
    /\ selected o
       = mkFrame (crs (normalise net)) (isin (network s) (found_vertex s))
    /\ totalLength o = total_length (isin (network s) (found_vertex s))
    /\ caller_network o
       = if String.eqb (crs net) EPSG27700
         then mkFrame (crs (normalise net)) (network s) else net.
Proof.
  unfold calcWaterCourseLengthBlockage. cbv zeta. intros H.
  destruct (while_loop _ _ _) as [s| |] eqn:E; cbn [bind] in H; try discriminate.
  apply while_loop_reaches in E. destruct E as [E1 E2].
  exists s. inversion H; subst o; clear H. simpl. tauto.
Qed.

(** C2: a connected candidate affected by a blockage is appended to the
    visited list and not to the queue; over a whole run, every id in the
    queue is explorable (the start, or reached through unblocked connected
    candidates only), every visited id is the start or a connected candidate
    of an explorable segment, and a blocked segment other than the start is
    never explorable. Consequently a segment whose every connection comes
    from a blocked segment is never visited and never explored, and is not
    in the returned selection. *)
Theorem exploration_stops_at_blockage
  (starting_fid : fid) (net : GeoDataFrame) (blockage : BlockageFrame)
  (d : Direction) (tolerance : Q) :
  let net0 := rows (normalise net) in
  let bl := bpoints (normalise_blockage blockage) in
  let s0 := init starting_fid net0 in
  let body := iteration_blockage bl d tolerance in
  let may_explore := explorable bl net0 d tolerance starting_fid in
  (forall cur_coord s f cs next_coord s',
      ~ In f (found_vertex s) ->
      geometry_of (network s) f = Ok cs ->
      py_index cs (dir_code d - 1) = Ok next_coord ->
      dist next_coord cur_coord <= tolerance ->
      blocked bl (network s) f ->
      visit_blockage bl d tolerance cur_coord s f = Ok s' ->
      found_vertex s' = found_vertex s ++ [f]
      /\ possible_vertex s' = possible_vertex s)
  /\ (forall s, reaches body s0 s ->
        (forall f, In f (possible_vertex s) -> may_explore f)
        /\ (forall f, In f (found_vertex s) ->
                      f = starting_fid
                      \/ exists p, may_explore p /\ link net0 d tolerance p f))
  /\ (forall f, may_explore f -> f = starting_fid \/ ~ blocked bl net0 f)
  /\ (forall s f,
        reaches body s0 s ->
        f <> starting_fid ->
        (forall p, link net0 d tolerance p f ->
                   p <> starting_fid /\ blocked bl net0 p) ->
        ~ In f (found_vertex s) /\ ~ In f (possible_vertex s))
  /\ (forall o f,
        calcWaterCourseLengthBlockage starting_fid net blockage d tolerance
        = Ok o ->
        f <> starting_fid ->
        (forall p, link net0 d tolerance p f ->
                   p <> starting_fid /\ blocked bl net0 p) ->
        ~ In f (map fst (rows (selected o)))).
Proof.
  intros net0 bl s0 body may_explore.
  assert (S : forall s, reaches body s0 s ->
                        sound bl net0 d tolerance starting_fid s).
  { intros s Hs. eapply reaches_sound; [exact Hs | apply sound_init]. }
  assert (N : forall s f,
             reaches body s0 s ->
             f <> starting_fid ->
             (forall p, link net0 d tolerance p f ->
                        p <> starting_fid /\ blocked bl net0 p) ->
             ~ In f (found_vertex s)).
  { intros s f Hs Hne Hall Hin.
    destruct (sound_found _ _ _ _ _ _ (S s Hs) f Hin) as [->|(p & Hp & L)];
      [now apply Hne|].
    destruct (Hall p L) as [Hps Hpb].
    destruct (explorable_unblocked _ _ _ _ _ _ Hp); contradiction. }
  split; [|split; [|split; [|split]]].
  - intros cur s f cs nxt s' Hnot Hg Hn Hd Hb H.
    unfold visit_blockage in H. apply mem_false in Hnot. rewrite Hnot in H.
    unfold geometry_of in Hg. rewrite Hg in H. cbn [bind] in H.
    rewrite Hn in H. cbn [bind] in H.
    apply Qle_bool_iff in Hd. rewrite Hd in H.
    unfold blocked in Hb.
    destruct (the_blockage_of bl (select_fid (network s) f)) as [|b bs];
      [contradiction|].
    bind_case H. bind_case H. inversion H; subst s'. simpl. tauto.
  - intros s Hs. destruct (S s Hs) as [S1 S2 _ _ _]. split; assumption.
  - intros f. apply explorable_unblocked.
  - intros s f Hs Hne Hall. split; [now apply N|].
    intros Hin. apply (N s f Hs Hne Hall).
    now apply (sound_incl _ _ _ _ _ _ (S s Hs)).
  - intros o f Ho Hne Hall Hin.
    destruct (calcWaterCourseLengthBlockage_Ok _ _ _ _ _ _ Ho)
      as (s & Hs & _ & Hsel & _).
    rewrite Hsel in Hin. simpl in Hin. apply in_map_iff in Hin.
    destruct Hin as (r & <- & Hr). unfold isin in Hr. apply filter_In in Hr.
    destruct Hr as [_ Hr]. apply mem_In in Hr.
    now apply (N s (fst r) Hs Hne Hall).
Qed.

(** ** The starting segment *)

Lemma far_end_fid net d c nxt : far_end net d c = Ok nxt -> In c (map fst net).
Proof.
  unfold far_end. intros H.
  destruct (geometry_of net c) eqn:E; cbn [bind] in H; try discriminate.
  eapply geometry_of_In; eassumption.
Qed.

Lemma link_fid net d tol p c : link net d tol p c -> In c (map fst net).
Proof. intros (cur & nxt & _ & _ & H & _). eapply far_end_fid; eassumption. Qed.

Lemma explorable_fid blockage net d tol start f :
  explorable blockage net d tol start f -> In f (map fst net).
Proof. destruct 1; [assumption | eapply link_fid; eassumption]. Qed.

Lemma reaches_blockage_fids blockage d tol s s' :
  reaches (iteration_blockage blockage d tol) s s' ->
  map fst (network s') = map fst (network s).
Proof.
  intros H.
  apply (later_fids _ _ (reaches_later _ (iteration_blockage_well_behaved _ _ _)
                           _ _ H)).
Qed.

(** C10: when the starting id is in the network and the blockage variant
    returns, the selection holds the rows of the starting segment with the
    geometry they had when the loop began, whatever the blockages are (also
    one within the buffer of the starting segment itself); every connected
    candidate of the starting segment is in the selection, and so is every
    explorable segment with all its connected candidates. *)
Theorem start_segment_kept_and_explored
  (starting_fid : fid) (net : GeoDataFrame) (blockage : BlockageFrame)
  (d : Direction) (tolerance : Q) (o : outcome) :
  In starting_fid (map fst (rows net)) ->
  calcWaterCourseLengthBlockage starting_fid net blockage d tolerance = Ok o ->
  let net0 := rows (normalise net) in
  let bl := bpoints (normalise_blockage blockage) in
  select_fid net0 starting_fid <> []
  /\ select_fid (rows (selected o)) starting_fid = select_fid net0 starting_fid
  /\ explorable bl net0 d tolerance starting_fid starting_fid
  /\ (forall c, link net0 d tolerance starting_fid c ->
                In c (map fst (rows (selected o))))
  /\ (forall f, explorable bl net0 d tolerance starting_fid f ->
                In f (map fst (rows (selected o)))
                /\ forall c, link net0 d tolerance f c ->
                             In c (map fst (rows (selected o)))).
Proof.
  intros Hin Ho net0 bl.
  destruct (calcWaterCourseLengthBlockage_Ok _ _ _ _ _ _ Ho)
    as (s & Hr & Hq & Hsel & _).
  fold net0 bl in Hr.
  assert (Hin0 : In starting_fid (map fst net0)).
  { unfold net0. now rewrite fids_normalise. }
  pose proof (reaches_framed _ _ _ _ _ _ _ Hr
                (sound_init bl net0 d tolerance starting_fid)
                (framed_init bl net0 starting_fid)) as F.
  pose proof (explorable_visited _ _ _ _ _ _ Hr Hq) as V.
  pose proof (reaches_blockage_fids _ _ _ _ _ Hr) as Hfids. simpl in Hfids.
  assert (E0 : explorable bl net0 d tolerance starting_fid starting_fid)
    by now constructor.
  assert (Sel : forall f, In f (map fst net0) -> In f (found_vertex s) ->
                          In f (map fst (rows (selected o)))).
  { intros f H1 H2. rewrite Hsel. simpl. apply fids_isin.
    rewrite Hfids. tauto. }
  assert (All : forall f, explorable bl net0 d tolerance starting_fid f ->
                In f (map fst (rows (selected o)))
                /\ forall c, link net0 d tolerance f c ->
                             In c (map fst (rows (selected o)))).
  { intros f Hf. destruct (V f Hf) as [V1 V2]. split.
    - apply Sel; [eapply explorable_fid; eassumption | assumption].
    - intros c L. apply Sel; [eapply link_fid; eassumption | now apply V2]. }
  split; [|split; [|split; [|split]]].
  - apply in_map_iff in Hin0. destruct Hin0 as (r & E & Hr0).
    intros Habs.
    assert (X : In r (select_fid net0 starting_fid))
      by (apply select_fid_In; tauto).
    rewrite Habs in X. destruct X.
  - rewrite Hsel. simpl. rewrite select_fid_isin.
    + now apply framed_start_rows with (blockage := bl).
    + destruct F as [F1 _]. now apply F1.
  - exact E0.
  - apply (All starting_fid E0).
  - exact All.
Qed.

(** ** The caller's network *)


Lemma isin_fids_isin net found :
  isin net (map fst (isin net found)) = isin net found.
Proof.
  unfold isin at 1 3. apply filter_ext_in. intros r Hr.
  destruct (mem (fst r) found) eqn:E.
  - apply mem_In. apply fids_isin. apply mem_In in E. split; [|assumption].
    now apply in_map.
  - apply mem_false. apply mem_false in E. intros H. apply fids_isin in H.
    tauto.
Qed.












(** ** Degenerate geometries *)



End Properties.

(** * Further properties of the two traversals *)

Section Coverage.

Context {G : Geometry}.

(** ** Endpoints *)

Lemma py_index_zero {A} (l : list A) x :
  hd_error l = Some x -> py_index l 0 = Ok x.
Proof.
  destruct l as [|a l]; simpl; intros H; [discriminate|].
  inversion H; subst. unfold py_index. cbv zeta.
  change (0 <? 0)%Z with false. cbv iota.
  replace (Z.of_nat (List.length (x :: l)) <=? 0)%Z with false
    by (symmetry; apply Z.leb_gt; simpl List.length; lia).
  reflexivity.
Qed.

Lemma py_index_minus_one {A} (l : list A) x :
  nth_error l (List.length l - 1) = Some x -> py_index l (-1) = Ok x.
Proof.
  intros H.
  assert (Hl : (List.length l - 1 < List.length l)%nat).
  { apply nth_error_Some. congruence. }
  unfold py_index. cbv zeta. change (-1 <? 0)%Z with true. cbv iota.
  replace (Z.of_nat (List.length l) + -1 <? 0)%Z with false
    by (symmetry; apply Z.ltb_ge; lia).
  replace (Z.of_nat (List.length l) <=? Z.of_nat (List.length l) + -1)%Z
    with false by (symmetry; apply Z.leb_gt; lia).
  cbn [orb].
  replace (Z.to_nat (Z.of_nat (List.length l) + -1))
    with (List.length l - 1)%nat by lia.
  now rewrite H.
Qed.

Lemma nonempty_ends {A} (l : list A) :
  l <> [] ->
  exists first final,
    hd_error l = Some first /\ nth_error l (List.length l - 1) = Some final.
Proof.
  intros H. destruct l as [|a l]; [contradiction|].
  destruct (nth_error (a :: l) (List.length (a :: l) - 1)) as [z|] eqn:E.
  - exists a, z. now split.
  - apply nth_error_None in E. simpl in E. lia.
Qed.

Lemma py_index_endpoint {A} (l : list A) d :
  l <> [] ->
  (exists x, py_index l (0 - dir_code d) = Ok x)
  /\ (exists y, py_index l (dir_code d - 1) = Ok y).
Proof.
  intros H. destruct (nonempty_ends l H) as (a & z & Ha & Hz).
  destruct d; simpl dir_code.
  - split; [exists a; now apply py_index_zero
           | exists z; now apply py_index_minus_one].
  - split; [exists z; now apply py_index_minus_one
           | exists a; now apply py_index_zero].
Qed.

(** X1: travelling upstream the leading endpoint of a segment is its first
    vertex and the far endpoint of a candidate is its last vertex;
    travelling downstream the two are exchanged. *)
Theorem endpoints_follow_direction
  (net : list row) (f : fid) (cs : coords) :
  geometry_of net f = Ok cs ->
  cs <> [] ->
  exists first final,
    hd_error cs = Some first
    /\ nth_error cs (List.length cs - 1) = Some final
    /\ leading net Upstream f = Ok first
    /\ far_end net Upstream f = Ok final
    /\ leading net Downstream f = Ok final
    /\ far_end net Downstream f = Ok first.
Proof.
  intros Hg Hne. destruct (nonempty_ends cs Hne) as (a & z & Ha & Hz).
  exists a, z. unfold leading, far_end. rewrite Hg. cbn [bind dir_code].
  repeat split; try assumption.
  - now apply py_index_zero.
  - now apply py_index_minus_one.
  - now apply py_index_minus_one.
  - now apply py_index_zero.
Qed.

(** ** The plain traversal leaves the network alone *)

Lemma visit_network d tol cur s f s' :
  visit d tol cur s f = Ok s' -> network s' = network s.
Proof.
  unfold visit. intros H. destruct (mem f (found_vertex s)).
  - now inversion H.
  - destruct (geometry_of (network s) f); cbn [bind] in H; try discriminate.
    destruct (py_index _ _); cbn [bind] in H; try discriminate.
    destruct (Qle_bool _ _); now inversion H.
Qed.

Lemma visit_all_network d tol cur fids : forall s s',
  visit_all d tol cur s fids = Ok s' -> network s' = network s.
Proof.
  induction fids as [|f l IH]; simpl; intros s s' H.
  - now inversion H.
  - destruct (visit d tol cur s f) as [s1| |] eqn:E; cbn [bind] in H;
      try discriminate.
    rewrite (IH _ _ H). eapply visit_network; eassumption.
Qed.

Lemma iteration_network d tol net f rest found s' :
  iteration d tol net f rest found = Ok s' -> network s' = net.
Proof.
  unfold iteration. intros H.
  destruct (geometry_of net f); cbn [bind] in H; try discriminate.
  destruct (py_index _ _); cbn [bind] in H; try discriminate.
  now rewrite (visit_all_network _ _ _ _ _ _ H).
Qed.

Lemma while_loop_plain_network d tol fuel : forall s s',
  while_loop (iteration d tol) fuel s = Ok s' -> network s' = network s.
Proof.
  induction fuel as [|n IH]; intros s s' H; simpl in H;
    destruct (possible_vertex s) as [|f rest]; try discriminate.
  - now inversion H.
  - now inversion H.
  - destruct (iteration d tol (network s) f rest (found_vertex s))
      as [s1| |] eqn:E; cbn [bind] in H; try discriminate.
    rewrite (IH _ _ H). eapply iteration_network; eassumption.
Qed.

Lemma crs_normalise net : crs (normalise net) = EPSG27700.
Proof.
  unfold normalise. destruct (String.eqb (crs net) EPSG27700) eqn:E.
  - now apply String.eqb_eq.
  - reflexivity.
Qed.

(** X2: the selection returned by the plain variant is in EPSG:27700 and
    consists of exactly the rows of the (reprojected) network whose id is
    selected, with their geometry as stored and in the order of the network;
    the total is the sum of the lengths of those rows. *)
Theorem plain_selection_keeps_network_rows
  (starting_fid : fid) (net : GeoDataFrame) (d : Direction) (tolerance : Q)
  (sel : GeoDataFrame) (total : Q) :
  calcWaterCourseLength starting_fid net d tolerance = Ok (sel, total) ->
  crs sel = EPSG27700
  /\ rows sel = isin (rows (normalise net)) (map fst (rows sel))
  /\ total = total_length (rows sel).
Proof.
  unfold calcWaterCourseLength. cbv zeta. intros H.
  destruct (while_loop _ _ _) as [s| |] eqn:E; cbn [bind] in H;
    try discriminate.
  apply while_loop_plain_network in E. simpl in E.
  inversion H; subst sel total; clear H. simpl. rewrite E.
  split; [apply crs_normalise|]. split; [|reflexivity].
  now rewrite isin_fids_isin.
Qed.

(** ** The plain traversal as a blockage traversal without blockages *)

Lemma iteration_blockage_nil d tol net f rest found :
  iteration_blockage [] d tol net f rest found
  = iteration d tol net f rest found.
Proof.
  unfold iteration_blockage, iteration.
  destruct (geometry_of net f); cbn [bind]; try reflexivity.
  destruct (py_index _ _); cbn [bind]; try reflexivity.
  apply visit_all_blockage_nil.
Qed.

Lemma plain_run start net d tol sel total :
  calcWaterCourseLength start net d tol = Ok (sel, total) ->
  exists s,
    reaches (iteration_blockage [] d tol) (init start (rows (normalise net))) s
    /\ possible_vertex s = []
    /\ network s = rows (normalise net)
    /\ rows sel = isin (rows (normalise net)) (found_vertex s).
Proof.
  unfold calcWaterCourseLength. cbv zeta. intros H.
  destruct (while_loop _ _ _) as [s| |] eqn:E; cbn [bind] in H;
    try discriminate.
  pose proof (while_loop_plain_network _ _ _ _ _ E) as Hn. simpl in Hn.
  rewrite <- (while_loop_ext (iteration_blockage [] d tol) (iteration d tol)
                (iteration_blockage_nil d tol)) in E.
  apply while_loop_reaches in E. destruct E as [E1 E2].
  exists s. inversion H; subst sel total. simpl. rewrite Hn. tauto.
Qed.

Lemma nothing_blocked_nil net f : ~ blocked [] net f.
Proof. unfold blocked, the_blockage_of. simpl. tauto. Qed.

(** X3: the plain variant selects exactly the segments connected to the
    start: an id is in the returned selection if and only if it is the
    start (when the network has it) or is reached from the start through a
    chain of connected candidates. *)
Theorem plain_selection_is_connected_closure
  (starting_fid : fid) (net : GeoDataFrame) (d : Direction) (tolerance : Q)
  (sel : GeoDataFrame) (total : Q) :
  calcWaterCourseLength starting_fid net d tolerance = Ok (sel, total) ->
  forall f,
    In f (map fst (rows sel))
    <-> explorable [] (rows (normalise net)) d tolerance starting_fid f.
Proof.
  intros H f. destruct (plain_run _ _ _ _ _ _ H) as (s & Hr & Hq & Hn & Hsel).
  set (net0 := rows (normalise net)) in *.
  pose proof (reaches_sound _ _ _ _ _ _ _ Hr
                (sound_init [] net0 d tolerance starting_fid)) as S.
  rewrite Hsel. rewrite fids_isin. split.
  - intros [Hin Hf].
    destruct (sound_found _ _ _ _ _ _ S f Hf) as [->|(p & Hp & L)].
    + now constructor.
    + eapply explorable_next; [exact Hp | exact L | apply nothing_blocked_nil].
  - intros He. split; [eapply explorable_fid; exact He|].
    now destruct (explorable_visited _ _ _ _ _ _ Hr Hq f He).
Qed.

(** ** When the traversals raise *)

(** The nearest vertex of [f] to its first blockage point is at index 1. *)
Definition single_vertex_cut (blockage : list point) (net0 : list row)
  (f : fid) : Prop :=
  exists cs b bs,
    geometry_of net0 f = Ok cs
    /\ the_blockage_of blockage (select_fid net0 f) = b :: bs
    /\ cut_index cs b = Ok 1%nat.

(** A step ends normally, or raises ValueError at a single-vertex cut. *)
Definition normal_or_single_cut {A : Type} (blockage : list point)
  (net0 : list row) (r : result A) : Prop :=
  (exists a, r = Ok a)
  \/ (r = Raise ValueError /\ exists f, single_vertex_cut blockage net0 f).

Definition all_nonempty (net : list row) : Prop :=
  forall r, In r net -> snd r <> [].

Lemma all_nonempty_normalise net :
  all_nonempty (rows net) -> all_nonempty (rows (normalise net)).
Proof.
  intros H. unfold normalise.
  destruct (String.eqb (crs net) EPSG27700); [exact H|].
  intros r Hr. simpl in Hr. apply in_map_iff in Hr.
  destruct Hr as (r0 & <- & Hr0). simpl. specialize (H r0 Hr0).
  destruct (snd r0); [contradiction | discriminate].
Qed.

Lemma geometry_of_nonempty net f :
  all_nonempty net -> In f (map fst net) ->
  exists cs, geometry_of net f = Ok cs /\ cs <> [].
Proof.
  intros Hne Hin. apply in_map_iff in Hin. destruct Hin as (r & E & Hr).
  assert (X : In r (select_fid net f)) by (apply select_fid_In; tauto).
  unfold geometry_of. destruct (select_fid net f) as [|r1 l] eqn:Es;
    [destruct X|].
  exists (snd r1). split; [reflexivity|]. apply Hne.
  assert (Y : In r1 (select_fid net f)) by (rewrite Es; now left).
  apply select_fid_In in Y. tauto.
Qed.

Lemma LineString_accepts cs : List.length cs <> 1%nat -> LineString cs = Ok cs.
Proof. destruct cs as [|a [|b l]]; simpl; intros H; try reflexivity. lia. Qed.

Lemma visit_blockage_outcome blockage net0 d tol start cur s c :
  all_nonempty net0 ->
  sound blockage net0 d tol start s ->
  (~ In c (found_vertex s) -> In c (potential_fids net0 cur tol)) ->
  normal_or_single_cut blockage net0 (visit_blockage blockage d tol cur s c).
Proof.
  intros Hne S Hc. unfold visit_blockage.
  destruct (mem c (found_vertex s)) eqn:Hm; [left; now eexists|].
  apply mem_false in Hm. specialize (Hc Hm).
  rewrite (sound_unfound _ _ _ _ _ _ S c Hm).
  assert (Hin : In c (map fst net0)).
  { apply potential_fids_In in Hc. destruct Hc as (r & Hr & _).
    apply select_fid_In in Hr. destruct Hr as [Hr <-]. now apply in_map. }
  destruct (geometry_of_nonempty net0 c Hne Hin) as (cs & Hg & Hcs).
  unfold geometry_of in Hg. rewrite Hg. cbn [bind].
  destruct (py_index_endpoint cs d Hcs) as [_ [nxt Hn]]. rewrite Hn.
  cbn [bind].
  destruct (Qle_bool (dist nxt cur) tol); [|left; now eexists].
  destruct (the_blockage_of blockage (select_fid net0 c)) as [|b bs] eqn:Eb;
    [left; now eexists|].
  destruct (cut_index_spec cs b Hcs) as (k & Hk & _ & Hlt).
  rewrite Hk. cbn [bind].
  destruct (Nat.eq_dec k 1) as [->|Hk1].
  - right. destruct cs as [|v [|w l]]; simpl in Hlt; try lia.
    simpl. split; [reflexivity|].
    exists c, (v :: w :: l), b, bs. unfold geometry_of. tauto.
  - left. rewrite LineString_accepts; [cbn [bind]; now eexists|].
    rewrite length_firstn. lia.
Qed.

Lemma visit_all_blockage_outcome blockage net0 d tol start p cur fids :
  forall s,
  all_nonempty net0 ->
  sound blockage net0 d tol start s ->
  explorable blockage net0 d tol start p ->
  leading net0 d p = Ok cur ->
  (forall c, In c fids -> ~ In c (found_vertex s) ->
             In c (potential_fids net0 cur tol)) ->
  normal_or_single_cut blockage net0
    (visit_all_blockage blockage d tol cur s fids).
Proof.
  induction fids as [|c l IH]; simpl; intros s Hne S Hp Hcur Hc.
  - left. now eexists.
  - destruct (visit_blockage_outcome blockage net0 d tol start cur s c Hne S)
      as [[s1 E]|[E X]].
    + intros Hn. apply Hc; [now left | assumption].
    + rewrite E. cbn [bind].
      pose proof (visit_blockage_grows _ _ _ _ _ _ _ E) as Hg.
      destruct (grows_sets _ _ Hg) as (new & _ & A & _).
      apply IH; try assumption.
      * eapply visit_blockage_sound; try eassumption. apply Hc. now left.
      * intros c' Hc' Hn. apply Hc; [now right|].
        intros Hin. apply Hn. rewrite A. apply in_app_iff. now left.
    + rewrite E. cbn [bind]. right. split; [reflexivity | assumption].
Qed.

Lemma iteration_blockage_outcome blockage net0 d tol start s f rest :
  all_nonempty net0 ->
  sound blockage net0 d tol start s ->
  possible_vertex s = f :: rest ->
  normal_or_single_cut blockage net0
    (iteration_blockage blockage d tol (network s) f rest (found_vertex s)).
Proof.
  intros Hne S Hq. unfold iteration_blockage.
  assert (Hf : In f (possible_vertex s)) by (rewrite Hq; now left).
  assert (Hg : geometry_of (network s) f = geometry_of net0 f).
  { unfold geometry_of. now rewrite (sound_queue_rows _ _ _ _ _ _ S f Hf). }
  rewrite Hg.
  pose proof (sound_queue _ _ _ _ _ _ S f Hf) as He.
  destruct (geometry_of_nonempty net0 f Hne (explorable_fid _ _ _ _ _ _ He))
    as (cs & Hcs & Hcne).
  rewrite Hcs. cbn [bind].
  destruct (py_index_endpoint cs d Hcne) as [[cur Hcur] _]. rewrite Hcur.
  cbn [bind]. destruct S as [S1 S2 S3 S4 S5].
  apply (visit_all_blockage_outcome blockage net0 d tol start f cur);
    try assumption.
  - split; simpl; try assumption.
    + intros g Hg'. apply S1. rewrite Hq. now right.
    + intros g Hg'. apply S4. rewrite Hq. now right.
    + intros x Hx. apply S5. rewrite Hq. now right.
  - unfold leading. rewrite Hcs. cbn [bind]. exact Hcur.
  - simpl. intros c Hc Hn. apply potential_fids_In in Hc.
    apply potential_fids_In. now rewrite <- (S3 c Hn).
Qed.

Lemma while_loop_blockage_outcome blockage net0 d tol start fuel :
  forall s,
  all_nonempty net0 ->
  sound blockage net0 d tol start s ->
  (measure s <= fuel)%nat ->
  normal_or_single_cut blockage net0
    (while_loop (iteration_blockage blockage d tol) fuel s).
Proof.
  induction fuel as [|n IH]; intros s Hne S Hm; simpl;
    destruct (possible_vertex s) as [|f rest] eqn:Hq;
    try (left; now eexists).
  - exfalso. unfold measure in Hm. rewrite Hq in Hm. simpl in Hm. lia.
  - destruct (iteration_blockage_outcome blockage net0 d tol start s f rest
                Hne S Hq) as [[s1 E]|[E X]].
    + rewrite E. cbn [bind]. apply IH; [assumption | |].
      * eapply iteration_blockage_sound; eassumption.
      * destruct (iteration_blockage_well_behaved blockage d tol
                    (network s) f rest (found_vertex s)) as [_ Hg].
        destruct (Hg s1 E) as [_ _ Hg'].
        unfold measure in *. rewrite Hq in Hm. simpl in *. lia.
    + rewrite E. cbn [bind]. right. split; [reflexivity | assumption].
Qed.

(** X4: on a network in which every geometry has vertices, the blockage
    variant never raises IndexError: the lookups [.iloc[0]],
    [coords[0 - direction]] and [coords[direction - 1]] all succeed (a
    segment emptied by a cut is visited already and is never looked up
    again). *)
Theorem blockage_variant_never_raises_index_error
  (starting_fid : fid) (net : GeoDataFrame) (blockage : BlockageFrame)
  (d : Direction) (tolerance : Q) :
  all_nonempty (rows net) ->
  calcWaterCourseLengthBlockage starting_fid net blockage d tolerance
  <> Raise IndexError.
Proof.
  intros Hne. apply all_nonempty_normalise in Hne.
  unfold calcWaterCourseLengthBlockage. cbv zeta.
  destruct (while_loop_blockage_outcome
              (bpoints (normalise_blockage blockage)) (rows (normalise net))
              d tolerance starting_fid (List.length (rows (normalise net)))
              (init starting_fid (rows (normalise net))) Hne
              (sound_init _ _ _ _ _) (measure_init _ _)) as [[s E]|[E X]];
    rewrite E; cbn [bind]; discriminate.
Qed.

(** X5: on a network in which every geometry has vertices, the plain
    variant never raises IndexError. *)
Theorem plain_variant_never_raises_index_error
  (starting_fid : fid) (net : GeoDataFrame) (d : Direction) (tolerance : Q) :
  all_nonempty (rows net) ->
  calcWaterCourseLength starting_fid net d tolerance <> Raise IndexError.
Proof.
  intros Hne. apply all_nonempty_normalise in Hne.
  unfold calcWaterCourseLength. cbv zeta.
  rewrite <- (while_loop_ext (iteration_blockage [] d tolerance)
                (iteration d tolerance) (iteration_blockage_nil d tolerance)).
  destruct (while_loop_blockage_outcome
              [] (rows (normalise net)) d tolerance starting_fid
              (List.length (rows (normalise net)))
              (init starting_fid (rows (normalise net))) Hne
              (sound_init _ _ _ _ _) (measure_init _ _)) as [[s E]|[E X]];
    rewrite E; cbn [bind]; discriminate.
Qed.

(** ** Blockages away from the river *)

Lemma visit_blockage_unblocked blockage d tol cur s c :
  (forall f, the_blockage_of blockage (select_fid (network s) f) = []) ->
  visit_blockage blockage d tol cur s c = visit d tol cur s c.
Proof.
  intros H. unfold visit_blockage, visit, geometry_of.
  destruct (mem c (found_vertex s)); [reflexivity|].
  destruct (iloc0 _); cbn [bind]; try reflexivity.
  destruct (py_index _ _); cbn [bind]; try reflexivity.
  now rewrite H.
Qed.

Lemma visit_all_blockage_unblocked blockage d tol cur fids : forall s,
  (forall f, the_blockage_of blockage (select_fid (network s) f) = []) ->
  visit_all_blockage blockage d tol cur s fids = visit_all d tol cur s fids.
Proof.
  induction fids as [|c l IH]; simpl; intros s H; [reflexivity|].
  rewrite (visit_blockage_unblocked _ _ _ _ _ _ H).
  destruct (visit d tol cur s c) as [s1| |] eqn:E; cbn [bind]; try reflexivity.
  apply IH. now rewrite (visit_network _ _ _ _ _ _ E).
Qed.

Lemma while_loop_unblocked blockage d tol fuel : forall s,
  (forall f, the_blockage_of blockage (select_fid (network s) f) = []) ->
  while_loop (iteration_blockage blockage d tol) fuel s
  = while_loop (iteration d tol) fuel s.
Proof.
  induction fuel as [|n IH]; intros s H; simpl;
    destruct (possible_vertex s) as [|f rest]; try reflexivity.
  assert (E : iteration_blockage blockage d tol (network s) f rest (found_vertex s)
              = iteration d tol (network s) f rest (found_vertex s)).
  { unfold iteration_blockage, iteration.
    destruct (geometry_of (network s) f); cbn [bind]; try reflexivity.
    destruct (py_index _ _); cbn [bind]; try reflexivity.
    now apply visit_all_blockage_unblocked. }
  rewrite E.
  destruct (iteration d tol (network s) f rest (found_vertex s))
    as [s1| |] eqn:E1; cbn [bind]; try reflexivity.
  apply IH. now rewrite (iteration_network _ _ _ _ _ _ _ E1).
Qed.

(** X6: when no blockage point lies within the buffer of any segment of
    the network, the blockage variant returns the same selection and total
    length as the plain variant (and raises when it raises), and it leaves
    the caller's network as it was. *)
Theorem blockages_away_from_river_change_nothing
  (starting_fid : fid) (net : GeoDataFrame) (blockage : BlockageFrame)
  (d : Direction) (tolerance : Q) :
  (forall f, ~ blocked (bpoints (normalise_blockage blockage))
                       (rows (normalise net)) f) ->
  fmap (fun o => (selected o, totalLength o))
       (calcWaterCourseLengthBlockage starting_fid net blockage d tolerance)
  = calcWaterCourseLength starting_fid net d tolerance
  /\ (forall o,
        calcWaterCourseLengthBlockage starting_fid net blockage d tolerance
        = Ok o ->
        caller_network o = net).
Proof.
  intros H.
  assert (H' : forall f,
             the_blockage_of (bpoints (normalise_blockage blockage))
               (select_fid (network (init starting_fid (rows (normalise net)))) f)
             = []).
  { intros f. simpl. specialize (H f). unfold blocked in H.
    destruct (the_blockage_of _ _); [reflexivity|].
    exfalso. apply H. discriminate. }
  unfold calcWaterCourseLengthBlockage, calcWaterCourseLength. cbv zeta.
  rewrite (while_loop_unblocked _ _ _ _ _ H').
  destruct (while_loop (iteration d tolerance) _ _) as [s| |] eqn:E;
    cbn [bind fmap]; split; try reflexivity; try discriminate.
  intros o Ho. inversion Ho; subst o; clear Ho. simpl.
  apply while_loop_plain_network in E. simpl in E. rewrite E.
  unfold normalise. destruct (String.eqb (crs net) EPSG27700); [|reflexivity].
  apply frame_eta.
Qed.

(** ** Blockages only remove segments *)

Lemma explorable_without_blockages blockage net d tol start f :
  explorable blockage net d tol start f -> explorable [] net d tol start f.
Proof.
  induction 1 as [Hs | p c Hp IH L Hb].
  - now constructor.
  - eapply explorable_next; [exact IH | exact L | apply nothing_blocked_nil].
Qed.

(** X7: on the same network, start, direction and tolerance, every id the
    blockage variant selects is also selected by the plain variant:
    blockages can remove segments from the selection and never add one. *)
Theorem blockages_only_remove_segments
  (starting_fid : fid) (net : GeoDataFrame) (blockage : BlockageFrame)
  (d : Direction) (tolerance : Q)
  (o : outcome) (sel : GeoDataFrame) (total : Q) :
  calcWaterCourseLengthBlockage starting_fid net blockage d tolerance = Ok o ->
  calcWaterCourseLength starting_fid net d tolerance = Ok (sel, total) ->
  incl (map fst (rows (selected o))) (map fst (rows sel)).
Proof.
  intros Ho Hp f Hf.
  destruct (calcWaterCourseLengthBlockage_Ok _ _ _ _ _ _ Ho)
    as (s & Hr & _ & Hsel & _).
  destruct (plain_run _ _ _ _ _ _ Hp) as (s' & Hr' & Hq' & _ & Hsel').
  set (net0 := rows (normalise net)) in *.
  set (bl := bpoints (normalise_blockage blockage)) in *.
  pose proof (reaches_sound _ _ _ _ _ _ _ Hr
                (sound_init bl net0 d tolerance starting_fid)) as S.
  rewrite Hsel in Hf. simpl in Hf. apply fids_isin in Hf.
  destruct Hf as [Hin Hfound].
  rewrite (reaches_blockage_fids _ _ _ _ _ Hr) in Hin. simpl in Hin.
  assert (He : explorable [] net0 d tolerance starting_fid f).
  { destruct (sound_found _ _ _ _ _ _ S f Hfound) as [->|(p & Hp' & L)].
    - now constructor.
    - eapply explorable_next;
        [eapply explorable_without_blockages; exact Hp' | exact L
        | apply nothing_blocked_nil]. }
  rewrite Hsel'. apply fids_isin. split; [assumption|].
  now destruct (explorable_visited _ _ _ _ _ _ Hr' Hq' f He).
Qed.

(** ** Degenerate segments *)





End Coverage.

(** * Concrete networks

    A small river along the x axis, run with the exact planar provider.
    Travelling upstream from [a] the chain is [a], [b], [c]; [d] lies
    downstream of [a]. *)

#[local] Existing Instance Plane.geometry.

Definition pt (x y : Z) : point := (inject_Z x, inject_Z y).

Definition seg_a : coords := [pt 0 0; pt 10 0].
Definition seg_b : coords := [pt (-10) 0; pt (-5) 0; pt 0 0].
Definition seg_c : coords := [pt (-20) 0; pt (-10) 0].
Definition seg_d : coords := [pt 10 0; pt 20 0].

Definition river_rows : list row :=
  [ ("a"%string, seg_a); ("b"%string, seg_b);
    ("c"%string, seg_c); ("d"%string, seg_d) ].

Definition river : GeoDataFrame := mkFrame EPSG27700 river_rows.


(** A weir on [b] next to its last vertex, one at its middle vertex, one at
    its first vertex, and one on the starting segment [a]. *)
Definition weir_near_end : BlockageFrame := mkBlockage EPSG27700 [pt (-1) 0].
Definition weir_at_middle : BlockageFrame := mkBlockage EPSG27700 [pt (-5) 0].
Definition weir_on_start : BlockageFrame := mkBlockage EPSG27700 [pt 5 0].

(** [b] cut before its last vertex. *)
Definition river_cut_rows : list row :=
  [ ("a"%string, seg_a); ("b"%string, [pt (-10) 0; pt (-5) 0]);
    ("c"%string, seg_c); ("d"%string, seg_d) ].

Definition selected_cut : GeoDataFrame :=
  mkFrame EPSG27700 [ ("a"%string, seg_a); ("b"%string, [pt (-10) 0; pt (-5) 0]) ].

Definition outcome_cut : outcome :=
  mkOutcome (mkFrame EPSG27700 river_cut_rows) selected_cut 15.

Definition outcome_weir_on_start : outcome :=
  mkOutcome river
            (mkFrame EPSG27700
               [ ("a"%string, seg_a); ("b"%string, seg_b); ("c"%string, seg_c) ])
            30.

(** The state in which the candidates of [a] are visited. *)
Definition at_a : state := mkState river_rows [] ["a"%string].

(** Candidates around the leading endpoint (0, 0) of [a]: [e] ends at
    distance exactly 0.1, [f] ends inside the search box at distance above
    0.1. *)
Definition boundary : GeoDataFrame := mkFrame EPSG27700
  [ ("a"%string, seg_a);
    ("e"%string, [pt (-10) 0; (-1 # 10, 0)]);
    ("f"%string, [pt (-5) (-5); (9 # 100, 9 # 100)]) ].

Example upstream_chain :
  calcWaterCourseLength "a"%string river Upstream default_tolerance
  = Ok (mkFrame EPSG27700
          [ ("a"%string, seg_a); ("b"%string, seg_b); ("c"%string, seg_c) ], 30).
Proof. vm_compute. reflexivity. Qed.

Example downstream_chain :
  calcWaterCourseLength "a"%string river Downstream default_tolerance
  = Ok (mkFrame EPSG27700 [ ("a"%string, seg_a); ("d"%string, seg_d) ], 20).
Proof. vm_compute. reflexivity. Qed.

Example tolerance_boundary :
  potential_fids (rows boundary) (pt 0 0) default_tolerance
  = ["a"%string; "e"%string; "f"%string]
  /\ calcWaterCourseLength "a"%string boundary Upstream default_tolerance
     = Ok (mkFrame EPSG27700
             [ ("a"%string, seg_a); ("e"%string, [pt (-10) 0; (-1 # 10, 0)]) ],
           199 # 10).
Proof. split; vm_compute; reflexivity. Qed.

Example blockage_truncation :
  calcWaterCourseLengthBlockage "a"%string river weir_near_end Upstream
                                default_tolerance
  = Ok outcome_cut.
Proof. vm_compute. reflexivity. Qed.



(** The candidates of [a] in the network [boundary]. *)
Definition at_a_boundary : state := mkState (rows boundary) [] ["a"%string].

(** C1, on the river: the weir at (-1, 0) is nearest to the last vertex of
    [b] (index 2), and [b] is stored cut to its first two vertices. *)
Lemma blocked_candidate_cut_witness :
  exists k,
    nearest_vertex_index (blockage_dists seg_b (pt (-1) 0)) k
    /\ visit_blockage [pt (-1) 0] Upstream default_tolerance (pt 0 0) at_a
                      "b"%string
       = (line <- LineString (firstn k seg_b) ;;
          Ok (mkState (set_geometry river_rows "b"%string line)
                      [] ["a"%string; "b"%string])).
Proof.
  assert (H1 : ~ In "b"%string (found_vertex at_a)).
  { intros [H|[]]. discriminate H. }
  assert (H2 : geometry_of (network at_a) "b"%string = Ok seg_b)
    by reflexivity.
  assert (H3 : py_index seg_b (dir_code Upstream - 1) = Ok (pt 0 0))
    by reflexivity.
  assert (H4 : dist (pt 0 0) (pt 0 0) <= default_tolerance).
  { apply Qle_bool_iff. vm_compute. reflexivity. }
  assert (H5 : the_blockage_of [pt (-1) 0] (select_fid (network at_a) "b"%string)
               = [pt (-1) 0]).
  { vm_compute. reflexivity. }
  destruct (blocked_candidate_cut_before_nearest_vertex
              [pt (-1) 0] Upstream default_tolerance (pt 0 0) at_a "b"%string
              seg_b (pt 0 0) (pt (-1) 0) [] H1 H2 H3 H4 H5)
    as (k & A & _ & B & _).
  exists k. split; [exact A | exact B].
Defined.

(** C5, at the boundary: the far endpoint of [e] is at distance exactly the
    tolerance from the leading endpoint of [a], and [e] is accepted. *)
Lemma connected_iff_within_tolerance_witness :
  exists s',
    visit Upstream default_tolerance (pt 0 0) at_a_boundary "e"%string = Ok s'
    /\ In "e"%string (found_vertex s')
    /\ In "e"%string (possible_vertex s').
Proof.
  assert (H1 : ~ In "e"%string (found_vertex at_a_boundary)).
  { intros [H|[]]. discriminate H. }
  assert (H2 : geometry_of (network at_a_boundary) "e"%string
               = Ok [pt (-10) 0; (-1 # 10, 0)]) by reflexivity.
  assert (H3 : py_index [pt (-10) 0; (-1 # 10, 0)] (dir_code Upstream - 1)
               = Ok (-1 # 10, 0)) by reflexivity.
  destruct (connected_iff_within_tolerance
              Upstream default_tolerance (pt 0 0) at_a_boundary "e"%string
              _ _ H1 H2 H3) as (s' & A & _ & _ & B & _).
  exists s'. split; [exact A|]. apply B. vm_compute. reflexivity.
Defined.



(** C8, on the river: no segment has the id [zz]. *)
Lemma unknown_start_witness :
  possible_vertex (init "zz"%string (rows (normalise river))) = []
  /\ (forall body fuel,
        while_loop body fuel (init "zz"%string (rows (normalise river)))
        = Ok (init "zz"%string (rows (normalise river))))
  /\ calcWaterCourseLength "zz"%string river Upstream default_tolerance
     = Ok (mkFrame (crs (normalise river)) [], 0)
  /\ calcWaterCourseLengthBlockage "zz"%string river weir_near_end Upstream
                                   default_tolerance
     = Ok (mkOutcome river (mkFrame (crs (normalise river)) []) 0).
Proof.
  apply (unknown_start_gives_empty_selection
           "zz"%string river weir_near_end Upstream default_tolerance).
  simpl. intros [H|[H|[H|[H|[]]]]]; discriminate H.
Defined.

(** C10, on the river with a weir on the starting segment [a]: [a] keeps
    its two vertices, and [b] and [c] upstream of it are selected. *)
Lemma start_segment_kept_witness :
  select_fid (rows (selected outcome_weir_on_start)) "a"%string
  = [("a"%string, seg_a)]
  /\ In "b"%string (map fst (rows (selected outcome_weir_on_start))).
Proof.
  assert (H1 : In "a"%string (map fst (rows river))) by (left; reflexivity).
  assert (H2 : calcWaterCourseLengthBlockage "a"%string river weir_on_start
                 Upstream default_tolerance = Ok outcome_weir_on_start).
  { vm_compute. reflexivity. }
  destruct (start_segment_kept_and_explored
              "a"%string river weir_on_start Upstream default_tolerance
              outcome_weir_on_start H1 H2) as (_ & A & _ & B & _).
  split; [exact A|]. apply B.
  exists (pt 0 0), (pt 0 0). repeat split; try reflexivity.
  - vm_compute. right. left. reflexivity.
  - apply Qle_bool_iff. vm_compute. reflexivity.
Defined.

(** C3: the weir at the middle vertex of [b] is nearest to index 1, the
    prefix before it is the single vertex (-10, 0), the line string
    constructor refuses it and the call raises ValueError. *)
Theorem single_vertex_prefix_raises :
  cut_index seg_b (pt (-5) 0) = Ok 1%nat
  /\ firstn 1 seg_b = [pt (-10) 0]
  /\ LineString (firstn 1 seg_b) = Raise ValueError
  /\ calcWaterCourseLengthBlockage "a"%string river weir_at_middle Upstream
                                   default_tolerance
     = Raise ValueError.
Proof. repeat split; vm_compute; reflexivity. Qed.


(** C2, on the river: with the weir near the end of [b], the only segment
    connected to [c] is the blocked [b]; [b] is selected and [c] is not. *)
Lemma exploration_stops_witness :
  In "b"%string (map fst (rows (selected outcome_cut)))
  /\ ~ In "c"%string (map fst (rows (selected outcome_cut))).
Proof.
  assert (H : calcWaterCourseLengthBlockage "a"%string river weir_near_end
                Upstream default_tolerance = Ok outcome_cut).
  { vm_compute. reflexivity. }
  assert (Hne : "c"%string <> "a"%string) by discriminate.
  assert (Hall : forall p,
             link river_rows Upstream default_tolerance p "c"%string ->
             p <> "a"%string /\ blocked [pt (-1) 0] river_rows p).
  { intros p (cur & nxt & L1 & _ & L3 & L4).
    assert (Hp : In p (map fst river_rows)).
    { unfold leading in L1.
      destruct (geometry_of river_rows p) eqn:E; try discriminate.
      eapply geometry_of_In; exact E. }
    vm_compute in L3. inversion L3; subst nxt; clear L3.
    apply Qle_bool_iff in L4.
    simpl in Hp. destruct Hp as [<-|[<-|[<-|[<-|[]]]]].
    - vm_compute in L1. inversion L1; subst cur. vm_compute in L4.
      discriminate.
    - split; [discriminate|]. unfold blocked. vm_compute. discriminate.
    - vm_compute in L1. inversion L1; subst cur. vm_compute in L4.
      discriminate.
    - vm_compute in L1. inversion L1; subst cur. vm_compute in L4.
      discriminate. }
  destruct (exploration_stops_at_blockage
              "a"%string river weir_near_end Upstream default_tolerance)
    as (_ & _ & _ & _ & W).
  split.
  - right. left. reflexivity.
  - exact (W outcome_cut "c"%string H Hne Hall).
Defined.

(** C4, on the river: neither function is left without iterations. *)
Lemma loop_terminates_witness :
  calcWaterCourseLength "a"%string river Upstream default_tolerance
  <> OutOfFuel
  /\ calcWaterCourseLengthBlockage "a"%string river weir_near_end Upstream
                                   default_tolerance
     <> OutOfFuel.
Proof.
  destruct (frontier_within_visited_and_loop_terminates
              "a"%string river weir_near_end Upstream default_tolerance)
    as (_ & _ & A & B).
  split; [exact A | exact B].
Defined.

(** C6, on the river with an empty blockage frame. *)
Lemma empty_blockage_witness :
  fmap (fun o => (selected o, totalLength o))
       (calcWaterCourseLengthBlockage "a"%string river
          (mkBlockage EPSG27700 []) Upstream default_tolerance)
  = calcWaterCourseLength "a"%string river Upstream default_tolerance.
Proof.
  exact (empty_blockage_same_as_plain
           "a"%string river EPSG27700 Upstream default_tolerance).
Defined.

(** A weir far from every segment of the river. *)
Definition weir_far_away : BlockageFrame := mkBlockage EPSG27700 [pt 0 50].

Definition selected_upstream : GeoDataFrame :=
  mkFrame EPSG27700
    [ ("a"%string, seg_a); ("b"%string, seg_b); ("c"%string, seg_c) ].

Lemma river_all_nonempty : all_nonempty (rows river).
Proof.
  intros r [<-|[<-|[<-|[<-|[]]]]]; discriminate.
Defined.

(** X1, on the river: [b] runs from (-10, 0) to (0, 0). *)
Lemma endpoints_follow_direction_witness :
  exists first final,
    hd_error seg_b = Some first
    /\ nth_error seg_b (List.length seg_b - 1) = Some final
    /\ leading river_rows Upstream "b"%string = Ok first
    /\ far_end river_rows Upstream "b"%string = Ok final
    /\ leading river_rows Downstream "b"%string = Ok final
    /\ far_end river_rows Downstream "b"%string = Ok first.
Proof.
  apply (endpoints_follow_direction river_rows "b"%string seg_b).
  - reflexivity.
  - discriminate.
Defined.

(** X2, on the river travelling upstream from [a]. *)
Lemma plain_selection_keeps_network_rows_witness :
  crs selected_upstream = EPSG27700
  /\ rows selected_upstream
     = isin (rows (normalise river)) (map fst (rows selected_upstream))
  /\ 30 = total_length (rows selected_upstream).
Proof.
  apply (plain_selection_keeps_network_rows
           "a"%string river Upstream default_tolerance selected_upstream 30).
  vm_compute. reflexivity.
Defined.

(** X3, on the river travelling upstream from [a]: [c] is selected, and it
    is reached from [a] through [b]. *)
Lemma plain_selection_is_connected_closure_witness :
  In "c"%string (map fst (rows selected_upstream))
  <-> explorable [] (rows (normalise river)) Upstream default_tolerance
                 "a"%string "c"%string.
Proof.
  apply (plain_selection_is_connected_closure
           "a"%string river Upstream default_tolerance selected_upstream 30).
  vm_compute. reflexivity.
Defined.

(** X4, on the river with the weir at the middle vertex of [b]. *)
Lemma blockage_variant_never_raises_index_error_witness :
  calcWaterCourseLengthBlockage "a"%string river weir_at_middle Upstream
                                default_tolerance
  <> Raise IndexError
  /\ all_nonempty (rows river).
Proof.
  split; [|exact river_all_nonempty].
  exact (blockage_variant_never_raises_index_error
           "a"%string river weir_at_middle Upstream default_tolerance
           river_all_nonempty).
Defined.

(** X5, on the river. *)
Lemma plain_variant_never_raises_index_error_witness :
  calcWaterCourseLength "a"%string river Downstream default_tolerance
  <> Raise IndexError
  /\ all_nonempty (rows river).
Proof.
  split; [|exact river_all_nonempty].
  exact (plain_variant_never_raises_index_error
           "a"%string river Downstream default_tolerance river_all_nonempty).
Defined.

Lemma weir_far_away_blocks_nothing f :
  ~ blocked (bpoints (normalise_blockage weir_far_away))
            (rows (normalise river)) f.
Proof.
  unfold blocked. intros H.
  remember (select_fid (rows (normalise river)) f) as sel eqn:Es.
  destruct (the_blockage_of (bpoints (normalise_blockage weir_far_away)) sel)
    as [|b bs] eqn:E; [now apply H|].
  assert (Hb : In b (b :: bs)) by now left.
  rewrite <- E in Hb. unfold the_blockage_of in Hb. apply filter_In in Hb.
  destruct Hb as [Hb Hw]. destruct Hb as [<-|[]].
  cbn [within_buffer Plane.geometry] in Hw.
  unfold Plane.within_unit_buffer in Hw.
  apply existsb_exists in Hw. destruct Hw as (g & Hg & Hw).
  apply in_map_iff in Hg. destruct Hg as (r & <- & Hr).
  rewrite Es in Hr. apply select_fid_In in Hr. destruct Hr as [Hr _].
  destruct Hr as [<-|[<-|[<-|[<-|[]]]]]; vm_compute in Hw; discriminate.
Defined.

(** X6, on the river with the weir far away. *)
Lemma blockages_away_from_river_witness :
  fmap (fun o => (selected o, totalLength o))
       (calcWaterCourseLengthBlockage "a"%string river weir_far_away Upstream
                                      default_tolerance)
  = calcWaterCourseLength "a"%string river Upstream default_tolerance
  /\ (forall o,
        calcWaterCourseLengthBlockage "a"%string river weir_far_away Upstream
                                      default_tolerance = Ok o ->
        caller_network o = river).
Proof.
  exact (blockages_away_from_river_change_nothing
           "a"%string river weir_far_away Upstream default_tolerance
           weir_far_away_blocks_nothing).
Defined.

(** X7, on the river: with the weir near the end of [b] the selection is
    [a], [b]; without blockages it is [a], [b], [c]. *)
Lemma blockages_only_remove_segments_witness :
  incl (map fst (rows (selected outcome_cut)))
       (map fst (rows selected_upstream)).
Proof.
  apply (blockages_only_remove_segments
           "a"%string river weir_near_end Upstream default_tolerance
           outcome_cut selected_upstream 30).
  - vm_compute. reflexivity.
  - vm_compute. reflexivity.
Defined.


